(** * A shallow embedding of [vae/vae.py]

    The file embeds the four methods of the class [VAE] of [vae/vae.py]
    ([sample_with_reparametrization], [kl_divergence], [elbo] and [sample])
    and proves properties of them.

    Modelling decisions.
    - Tensor entries belong to a type [T] equipped with the arithmetic of the
      class [Scalar]; the definitions are written once for every such [T].
      Properties of the data flow (shapes, dependence on rows and on the
      random stream) are proved for every [Scalar].  The formulas written
      with a sum and the properties of order are proved for the instance
      [R_scalar] of exact real arithmetic, where the order of the additions
      of [torch.sum] is immaterial.  The instance [F32_scalar] is IEEE
      binary32 arithmetic, with the library functions [exp], [log] and
      [pow] as parameters; it shows where overflow and underflow break the
      properties of order.
    - [torch.randn] takes its sizes as 64-bit integers and allocates the
      tensor; both failures are modelled in [torch_randn].
    - A 2-D tensor carries its shape next to its rows, so that the shape
      [(0, d)] is distinguished from [(0, d')].
    - Python exceptions are values of [error]; a method that can raise
      returns a [result].
    - The process-wide random generator of torch is an explicit state of an
      abstract type [G] with the operations of the class [Runtime].
    - [Encoder] and [Decoder] live in modules of the repository that are not
      part of the file; they are fields of the record [VAE] and the
      properties that need their contract take it as a hypothesis. *)

From Stdlib Require Import String.
From Stdlib Require Import List ZArith Lia Bool QArith Reals Lra Qreals SpecFloat.
From Stdlib Require Import Permutation.
Import ListNotations.

Set Implicit Arguments.
Open Scope nat_scope.

(** ** Exceptions *)

Inductive error : Type := TypeError | RuntimeError.

Inductive result (A : Type) : Type :=
| Ok (a : A)
| Err (e : error).

Arguments Ok {A} a.
Arguments Err {A} e.

Definition bindR {A B : Type} (r : result A) (k : A -> result B) : result B :=
  match r with
  | Ok a => k a
  | Err e => Err e
  end.

Notation "'let*' x ':=' e 'in' k" := (bindR e (fun x => k))
  (at level 10, x pattern, e at level 100, k at level 200).

(** The runtime check of the decorator [typechecked]. *)
Definition typecheck (b : bool) : result unit :=
  if b then Ok tt else Err TypeError.

(** ** Scalars *)

Class Scalar (T : Type) : Type := {
  s_of_Z : Z -> T;
  s_of_Q : Q -> T;
  s_add : T -> T -> T;
  s_sub : T -> T -> T;
  s_mul : T -> T -> T;
  s_pow : T -> Z -> T;
  s_exp : T -> T;
  s_log : T -> T;
  s_ltb : T -> T -> bool;
  s_leb : T -> T -> bool;
  s_ltb_leb : forall a b : T, s_ltb a b = true -> s_leb a b = true
}.

(** ** The torch runtime

    [G] is the state of the process-wide random generator.  [next_normal]
    draws one standard normal value, [next_uniform] one uniform value of
    [[0, 1)]; [manual_seed] is the state after [torch.manual_seed];
    [device_available] tells which devices other than the CPU exist;
    [can_allocate] tells whether a tensor with that many entries can be
    allocated. *)

Class Runtime (T G : Type) : Type := {
  next_normal : G -> T * G;
  next_uniform : G -> T * G;
  manual_seed : Z -> G;
  device_available : String.string -> bool;
  can_allocate : Z -> bool
}.

Definition zip_with {A B C : Type} (f : A -> B -> C) (l1 : list A) (l2 : list B) : list C :=
  map (fun p => f (fst p) (snd p)) (combine l1 l2).

Section Tensors.

Context {T : Type} `{Scalar T}.

(** ** Tensors *)

Record tensor2 : Type := Tensor2 {
  shape0 : nat;
  shape1 : nat;
  rows : list (list T)
}.

Definition tensor1 : Type := list T.

Definition wf2 (t : tensor2) : Prop :=
  length (rows t) = shape0 t /\ Forall (fun r => length r = shape1 t) (rows t).

Definition has_shape (t : tensor2) (n m : nat) : Prop :=
  wf2 t /\ shape0 t = n /\ shape1 t = m.

Definition same_shape (a b : tensor2) : bool :=
  (shape0 a =? shape0 b) && (shape1 a =? shape1 b).

(** Entry [(i, j)]; out of range it is the scalar zero. *)
Definition entry (t : tensor2) (i j : nat) : T :=
  nth j (nth i (rows t) []) (s_of_Z 0).

Definition entry1 (v : tensor1) (i : nat) : T := nth i v (s_of_Z 0).

Definition row (t : tensor2) (i : nat) : list T := nth i (rows t) [].

(** Elementwise application of a function. *)
Definition map2d (f : T -> T) (t : tensor2) : tensor2 :=
  Tensor2 (shape0 t) (shape1 t) (map (map f) (rows t)).

(** [c + t], [c * t] and [c - t] for a Python number [c]. *)
Definition scalar_add (c : T) (t : tensor2) : tensor2 := map2d (s_add c) t.
Definition scalar_mul (c : T) (t : tensor2) : tensor2 := map2d (s_mul c) t.
Definition scalar_rsub (c : T) (t : tensor2) : tensor2 := map2d (s_sub c) t.

Definition t_exp (t : tensor2) : tensor2 := map2d s_exp t.
Definition t_log (t : tensor2) : tensor2 := map2d s_log t.
Definition t_pow (t : tensor2) (n : Z) : tensor2 := map2d (fun v => s_pow v n) t.

(** Broadcasting of one dimension: equal sizes, or one of them is 1. *)
Definition broadcast_dim (a b : nat) : option nat :=
  if a =? b then Some a
  else if a =? 1 then Some b
  else if b =? 1 then Some a
  else None.

Definition expand (n m : nat) (t : tensor2) : list (list T) :=
  let rs := if shape1 t =? m then rows t
            else map (fun r => repeat (hd (s_of_Z 0) r) m) (rows t) in
  if shape0 t =? n then rs else repeat (hd [] rs) n.

(** A binary elementwise operation on 2-D tensors. *)
Definition binop2 (f : T -> T -> T) (a b : tensor2) : result tensor2 :=
  match broadcast_dim (shape0 a) (shape0 b), broadcast_dim (shape1 a) (shape1 b) with
  | Some n, Some m =>
      Ok (Tensor2 n m (zip_with (zip_with f) (expand n m a) (expand n m b)))
  | _, _ => Err RuntimeError
  end.

Definition t_add := binop2 s_add.
Definition t_sub := binop2 s_sub.
Definition t_mul := binop2 s_mul.

Definition expand1 (n : nat) (v : tensor1) : tensor1 :=
  if length v =? n then v else repeat (hd (s_of_Z 0) v) n.

(** A binary elementwise operation on 1-D tensors. *)
Definition binop1 (f : T -> T -> T) (u v : tensor1) : result tensor1 :=
  match broadcast_dim (length u) (length v) with
  | Some n => Ok (zip_with f (expand1 n u) (expand1 n v))
  | None => Err RuntimeError
  end.

Definition t_sub1 := binop1 s_sub.

Definition scalar_mul1 (c : T) (v : tensor1) : tensor1 := map (s_mul c) v.

(** [torch.sum] of a list of entries, accumulated from zero.  In exact
    arithmetic the order of the additions is immaterial.  In binary32
    torch may add the entries of a long row in another order; what is
    stated about binary32 below does not depend on the order. *)
Definition sum_list (l : list T) : T := fold_left s_add l (s_of_Z 0).

(** [torch.sum(t, dim=1)]. *)
Definition sum_dim1 (t : tensor2) : tensor1 := map sum_list (rows t).

End Tensors.

Arguments tensor2 T : clear implicits.
Arguments tensor1 T : clear implicits.

(** ** The methods of [VAE] *)

Section Model.

Context {T : Type} `{Scalar T} {G : Type} `{Runtime T G}.

(** Computations that read and advance the generator and may raise.  The
    generator keeps the state it had when the exception was raised. *)
Definition M (A : Type) : Type := G -> result A * G.

Definition ret {A : Type} (a : A) : M A := fun g => (Ok a, g).

Definition bind {A B : Type} (m : M A) (k : A -> M B) : M B :=
  fun g =>
    match m g with
    | (Ok a, g') => k a g'
    | (Err e, g') => (Err e, g')
    end.

Definition lift {A : Type} (r : result A) : M A := fun g => (r, g).

Notation "x <- m ;; k" := (bind m (fun x => k))
  (at level 61, m at next level, right associativity).

(** [m] draws, one after the other. *)
Fixpoint draw_list (next : G -> T * G) (m : nat) (g : G) : list T * G :=
  match m with
  | O => ([], g)
  | S m' =>
      let (v, g1) := next g in
      let (vs, g2) := draw_list next m' g1 in
      (v :: vs, g2)
  end.

(** [n] rows of [m] draws, in row-major order. *)
Fixpoint draw_rows (next : G -> T * G) (n m : nat) (g : G) : list (list T) * G :=
  match n with
  | O => ([], g)
  | S n' =>
      let (r, g1) := draw_list next m g in
      let (rs, g2) := draw_rows next n' m g1 in
      (r :: rs, g2)
  end.

(** The draw of [torch.randn(n, m)] for a size that fits: a negative
    dimension raises. *)
Definition randn (n : Z) (m : nat) : M (tensor2 T) :=
  fun g =>
    if (n <? 0)%Z then (Err RuntimeError, g)
    else
      let (rs, g') := draw_rows next_normal (Z.to_nat n) m g in
      (Ok (Tensor2 (Z.to_nat n) m rs), g').

(** The sizes that fit in a signed 64-bit integer. *)
Definition int64_min : Z := (- 2 ^ 63)%Z.
Definition int64_max : Z := (2 ^ 63 - 1)%Z.

Definition fits_int64 (n : Z) : bool :=
  ((int64_min <=? n) && (n <=? int64_max))%Z.

(** A tensor without entries needs no memory. *)
Definition allocation_ok (numel : Z) : bool :=
  (numel =? 0)%Z || can_allocate numel.

(** [torch.randn(n, m)] on a Python integer [n]: a size outside the
    64-bit range fails to unpack, a negative dimension raises, and so does
    a tensor that cannot be allocated. *)
Definition torch_randn (n : Z) (m : nat) : M (tensor2 T) :=
  fun g =>
    if negb (fits_int64 n) then (Err TypeError, g)
    else if (0 <=? n)%Z && negb (allocation_ok (n * Z.of_nat m)) then
      (Err RuntimeError, g)
    else randn n m g.

(** [torch.randn_like(t)]. *)
Definition randn_like (t : tensor2 T) : M (tensor2 T) :=
  fun g =>
    let (rs, g') := draw_rows next_normal (shape0 t) (shape1 t) g in
    (Ok (Tensor2 (shape0 t) (shape1 t) rs), g').

(** [t.to(device)]: the entries are unchanged; an absent device raises. *)
Definition to_device (device : String.string) (t : tensor2 T) : result (tensor2 T) :=
  if String.eqb device "cpu"%string || device_available device then Ok t
  else Err RuntimeError.

Definition bernoulli_draw (u p : T) : T :=
  if s_ltb u p then s_of_Z 1 else s_of_Z 0.

Fixpoint bernoulli_list (ps : list T) (g : G) : list T * G :=
  match ps with
  | [] => ([], g)
  | p :: ps' =>
      let (u, g1) := next_uniform g in
      let (xs, g2) := bernoulli_list ps' g1 in
      (bernoulli_draw u p :: xs, g2)
  end.

Fixpoint bernoulli_rows (rs : list (list T)) (g : G) : list (list T) * G :=
  match rs with
  | [] => ([], g)
  | r :: rs' =>
      let (x, g1) := bernoulli_list r g in
      let (xs, g2) := bernoulli_rows rs' g1 in
      (x :: xs, g2)
  end.

Definition is_probability (p : T) : bool :=
  s_leb (s_of_Z 0) p && s_leb p (s_of_Z 1).

(** [torch.bernoulli(theta)]: an entry outside [[0, 1]] raises. *)
Definition bernoulli (theta : tensor2 T) : M (tensor2 T) :=
  fun g =>
    if forallb (forallb is_probability) (rows theta) then
      let (xs, g') := bernoulli_rows (rows theta) g in
      (Ok (Tensor2 (shape0 theta) (shape1 theta) xs), g')
    else (Err RuntimeError, g).

(** [self]: the attributes that the methods read.  [encoder] and [decoder]
    are the [forward] of the two networks. *)
Record VAE : Type := {
  latent_dim : nat;
  encoder : tensor2 T -> result (tensor2 T * tensor2 T);
  decoder : tensor2 T -> result (tensor2 T)
}.

(** Lines 44-45: [sigma = exp(logsigma)], [z = mu + epsilon * sigma]. *)
Definition reparametrize (mu logsigma epsilon : tensor2 T) : result (tensor2 T) :=
  let sigma := t_exp logsigma in
  let* es := t_mul epsilon sigma in
  t_add mu es.

Definition sample_with_reparametrization (mu logsigma : tensor2 T) : M (tensor2 T) :=
  _ <- lift (typecheck (same_shape mu logsigma)) ;;
  epsilon <- randn_like mu ;;
  z <- lift (reparametrize mu logsigma epsilon) ;;
  _ <- lift (typecheck (same_shape z mu)) ;;
  ret z.

Definition kl_divergence (mu logsigma : tensor2 T) : result (tensor1 T) :=
  let* _ := typecheck (same_shape mu logsigma) in
  let* a := t_sub (scalar_add (s_of_Z 1) (scalar_mul (s_of_Z 2) logsigma)) (t_pow mu 2) in
  let* b := t_sub a (t_exp (scalar_mul (s_of_Z 2) logsigma)) in
  let kl := scalar_mul1 (s_of_Q (-1 # 2)) (sum_dim1 b) in
  let* _ := typecheck (length kl =? shape0 mu) in
  Ok kl.

(** Line 90. *)
Definition reconstruction (x theta : tensor2 T) : result (tensor1 T) :=
  let* a := t_mul x (t_log theta) in
  let* b := t_mul (scalar_rsub (s_of_Z 1) x) (t_log (scalar_rsub (s_of_Z 1) theta)) in
  let* c := t_add a b in
  Ok (sum_dim1 c).

Definition elbo (self : VAE) (x : tensor2 T) : M (tensor1 T) :=
  p <- lift (encoder self x) ;;
  z <- sample_with_reparametrization (fst p) (snd p) ;;
  theta <- lift (decoder self z) ;;
  reconstruction_loss <- lift (reconstruction x theta) ;;
  kl <- lift (kl_divergence (fst p) (snd p)) ;;
  elbo_mc <- lift (t_sub1 reconstruction_loss kl) ;;
  _ <- lift (typecheck (length elbo_mc =? shape0 x)) ;;
  ret elbo_mc.

Definition sample (self : VAE) (num_samples : Z) (device : String.string)
  : M (tensor2 T * tensor2 T * tensor2 T) :=
  z0 <- torch_randn num_samples (latent_dim self) ;;
  z <- lift (to_device device z0) ;;
  theta <- lift (decoder self z) ;;
  x <- bernoulli theta ;;
  _ <- lift (typecheck ((shape0 z =? shape0 theta) && same_shape theta x)) ;;
  ret (z, theta, x).

End Model.

Arguments VAE T : clear implicits.

(** ** The formulas of the specification *)

Declare Scope scalar_scope.
Delimit Scope scalar_scope with S.
Infix "+" := s_add : scalar_scope.
Infix "-" := s_sub : scalar_scope.
Infix "*" := s_mul : scalar_scope.

Section Formulas.

Context {T : Type} `{Scalar T}.

(** The sum of [f 0], ..., [f (n - 1)]. *)
Definition big_sum (n : nat) (f : nat -> T) : T := sum_list (map f (seq 0 n)).

(** [-0.5 * sum_over_latent_dims(1 + 2*logsigma - mu^2 - exp(2*logsigma))]
    on row [i]. *)
Definition kl_formula (mu logsigma : tensor2 T) (i : nat) : T :=
  (s_of_Q (-1 # 2) *
   big_sum (shape1 mu) (fun d =>
     s_of_Z 1 + s_of_Z 2 * entry logsigma i d - s_pow (entry mu i d) 2
     - s_exp (s_of_Z 2 * entry logsigma i d)))%S.


(** The same formulas on one row of each tensor. *)
Definition kl_term (l m : T) : T :=
  (s_of_Z 1 + s_of_Z 2 * l - s_pow m 2 - s_exp (s_of_Z 2 * l))%S.

Definition kl_row (l m : list T) : T :=
  (s_of_Q (-1 # 2) * sum_list (zip_with kl_term l m))%S.

Definition recon_term (x th : T) : T :=
  (x * s_log th + (s_of_Z 1 - x) * s_log (s_of_Z 1 - th))%S.

Definition recon_row (x th : list T) : T := sum_list (zip_with recon_term x th).

Definition reparam_row (m l e : list T) : list T :=
  zip_with s_add m (zip_with s_mul e (map s_exp l)).

(** [t] with the entry [(i, d)] replaced by [f] of it. *)
Fixpoint update_nth {A : Type} (i : nat) (f : A -> A) (l : list A) : list A :=
  match l, i with
  | [], _ => []
  | a :: l', O => f a :: l'
  | a :: l', S i' => a :: update_nth i' f l'
  end.

Definition update_entry (t : tensor2 T) (i d : nat) (f : T -> T) : tensor2 T :=
  Tensor2 (shape0 t) (shape1 t) (update_nth i (update_nth d f) (rows t)).

(** The tensor of shape [(n, m)] filled with [c]. *)
Definition full (n m : nat) (c : T) : tensor2 T :=
  Tensor2 n m (repeat (repeat c m) n).

(** A function applied to every row, giving rows of length [m]. *)
Definition map_rows (m : nat) (f : list T -> list T) (t : tensor2 T) : tensor2 T :=
  Tensor2 (shape0 t) m (map f (rows t)).

Definition in_open_unit (p : T) : Prop :=
  s_ltb (s_of_Z 0) p = true /\ s_ltb p (s_of_Z 1) = true.

Definition is_zero_or_one (v : T) : Prop := v = s_of_Z 0 \/ v = s_of_Z 1.

Definition all_entries (P : T -> Prop) (t : tensor2 T) : Prop :=
  Forall (Forall P) (rows t).

End Formulas.

(** ** The contracts of the encoder and of the decoder *)

Section Contracts.

Context {T : Type} `{Scalar T}.

(** Modelled from the spec: the module [encoder.py] is missing.  Its
    interface is [encode(x: tensor[batch, input_dim]) -> (mu: tensor[batch,
    latent_dim], logsigma: tensor[batch, latent_dim])]. *)
Definition encoder_contract (self : VAE T) (input_dim : nat) : Prop :=
  forall (x : tensor2 T) (B : nat),
    has_shape x B input_dim ->
    exists mu logsigma,
      encoder self x = Ok (mu, logsigma) /\
      has_shape mu B (latent_dim self) /\
      has_shape logsigma B (latent_dim self).

(** Modelled from the spec: the module [decoder.py] is missing.  Its
    interface is [decode(z: tensor[batch, latent_dim]) -> theta:
    tensor[batch, input_dim]]. *)
Definition decoder_contract (self : VAE T) (input_dim : nat) : Prop :=
  forall (z : tensor2 T) (B : nat),
    has_shape z B (latent_dim self) ->
    exists theta,
      decoder self z = Ok theta /\ has_shape theta B input_dim.

(** Modelled from the spec: the values of the decoder are strictly within
    (0,1). *)
Definition decoder_range (self : VAE T) : Prop :=
  forall z theta, decoder self z = Ok theta -> all_entries in_open_unit theta.

(** Modelled from the spec: the networks are feed-forward transformations
    of each example of the batch, so that the batch dimension carries no
    dependency: each output row is a function of the same input row. *)
Definition encoder_rowwise (self : VAE T) (input_dim : nat) : Prop :=
  exists f_mu f_logsigma : list T -> list T,
    (forall r, length r = input_dim ->
       length (f_mu r) = latent_dim self /\
       length (f_logsigma r) = latent_dim self) /\
    forall x : tensor2 T,
      wf2 x -> shape1 x = input_dim ->
      encoder self x =
        Ok (map_rows (latent_dim self) f_mu x,
            map_rows (latent_dim self) f_logsigma x).

Definition decoder_rowwise (self : VAE T) (input_dim : nat) : Prop :=
  exists f_theta : list T -> list T,
    (forall r, length r = latent_dim self -> length (f_theta r) = input_dim) /\
    forall z : tensor2 T,
      wf2 z -> shape1 z = latent_dim self ->
      decoder self z = Ok (map_rows input_dim f_theta z).

End Contracts.

(** ** Reseeding *)

Section Reseeding.

Context {T : Type} `{Scalar T} {G : Type} `{Runtime T G}.

(** [torch.manual_seed(seed)]. *)
Definition torch_manual_seed (seed : Z) : M (G := G) unit :=
  fun _ => (Ok tt, manual_seed seed).

(** The scenario of the specification: the seed is reset, [elbo] is
    called, the seed is reset to the same value and [elbo] is called
    again on the same batch. *)
Definition elbo_twice_reseeded (self : VAE T) (x : tensor2 T) (seed : Z)
  : M (G := G) (tensor1 T * tensor1 T) :=
  bind (torch_manual_seed seed) (fun _ =>
  bind (elbo self x) (fun out1 =>
  bind (torch_manual_seed seed) (fun _ =>
  bind (elbo self x) (fun out2 =>
  ret (out1, out2))))).

(** The noise that [randn_like] draws for a tensor of shape [(n, m)]. *)
Definition noise (n m : nat) (g : G) : tensor2 T :=
  Tensor2 n m (fst (draw_rows next_normal n m g)).

(** The state of the generator after that draw. *)
Definition noise_state (n m : nat) (g : G) : G :=
  snd (draw_rows (T := T) next_normal n m g).

End Reseeding.

(** ** Exact real arithmetic *)

Definition Rltb (a b : R) : bool := if Rlt_dec a b then true else false.
Definition Rleb (a b : R) : bool := if Rle_dec a b then true else false.

#[global] Instance R_scalar : Scalar R.
Proof.
  refine {|
    s_of_Z := IZR;
    s_of_Q := Q2R;
    s_add := Rplus;
    s_sub := Rminus;
    s_mul := Rmult;
    s_pow := powerRZ;
    s_exp := exp;
    s_log := ln;
    s_ltb := Rltb;
    s_leb := Rleb;
    s_ltb_leb := _
  |}.
  intros a b; unfold Rltb, Rleb.
  destruct (Rlt_dec a b) as [Hlt | Hlt]; [ | discriminate ].
  destruct (Rle_dec a b) as [Hle | Hle]; [ reflexivity | ].
  exfalso; apply Hle, Rlt_le, Hlt.
Defined.

(** ** A small instance

    A runtime whose generator state is a counter, whose draws have period
    3 and which can allocate tensors of at most [2^20] entries,
    an encoder that returns the row sum as mean and 0 as log-sigma, and a
    decoder that returns 1/2 everywhere. *)

#[global] Instance toy_runtime : Runtime R nat := {|
  next_normal := fun g => (IZR (Z.of_nat (g mod 3)) - 1, S g)%R;
  next_uniform := fun g => (IZR (Z.of_nat (g mod 3)) / 3, S g)%R;
  manual_seed := Z.to_nat;
  device_available := fun _ => false;
  can_allocate := fun numel => (numel <=? 2 ^ 20)%Z
|}.

Definition toy_encoder (input_dim latent : nat) (x : tensor2 R)
  : result (tensor2 R * tensor2 R) :=
  if shape1 x =? input_dim then
    Ok (map_rows latent (fun r => repeat (sum_list r) latent) x,
        map_rows latent (fun _ => repeat 0%R latent) x)
  else Err RuntimeError.

Definition toy_decoder (input_dim latent : nat) (z : tensor2 R) : result (tensor2 R) :=
  if shape1 z =? latent then
    Ok (map_rows input_dim (fun _ => repeat (1 / 2)%R input_dim) z)
  else Err RuntimeError.

Definition toy_vae (input_dim latent : nat) : VAE R := {|
  latent_dim := latent;
  encoder := toy_encoder input_dim latent;
  decoder := toy_decoder input_dim latent
|}.

(** ** IEEE binary32 arithmetic

    The default element type of torch: [prec = 24], [emax = 128], with the
    operations of [SpecFloat] (rounding to nearest, ties to even).  The
    library functions [exp], [log] and [pow] with an exponent other than 2
    are parameters. *)

Definition f32_of_Z (z : Z) : spec_float := binary_normalize 24 128 z 0 false.

Definition f32_of_Q (q : Q) : spec_float :=
  SFdiv 24 128 (f32_of_Z (Qnum q)) (f32_of_Z (Zpos (Qden q))).



Definition F32_scalar (f32_exp f32_log : spec_float -> spec_float)
           (f32_pow : spec_float -> Z -> spec_float) : Scalar spec_float.
Proof.
  refine {|
    s_of_Z := f32_of_Z;
    s_of_Q := f32_of_Q;
    s_add := SFadd 24 128;
    s_sub := SFsub 24 128;
    s_mul := SFmul 24 128;
    s_pow := fun v n => if (n =? 2)%Z then SFmul 24 128 v v else f32_pow v n;
    s_exp := f32_exp;
    s_log := f32_log;
    s_ltb := SFltb;
    s_leb := SFleb;
    s_ltb_leb := _
  |}.
  intros a b. unfold SFltb, SFleb.
  destruct (SFcompare a b) as [[ | | ] | ]; intros Hlt;
    try reflexivity; discriminate Hlt.
Defined.

(** [2^127], the largest power of two of binary32, and [2^-100]. *)
Definition f32_pow2_127 : spec_float := S754_finite false 8388608 104.
Definition f32_pow2_m100 : spec_float := S754_finite false 8388608 (-123).

Definition f32_zeros : tensor2 spec_float := Tensor2 1 1 [[S754_zero false]].
Definition f32_tiny : tensor2 spec_float := Tensor2 1 1 [[f32_pow2_m100]].

(** ** Sample tensors *)

Definition ex_mu : tensor2 R := Tensor2 1 2 [[1; 2]]%R.
Definition ex_logsigma : tensor2 R := Tensor2 1 2 [[0; 0]]%R.
Definition ex_x : tensor2 R := Tensor2 2 3 [[1; 0; 1]; [0; 0; 1]]%R.
Definition ex_x' : tensor2 R := Tensor2 2 3 [[1; 0; 1]; [1; 1; 0]]%R.

(** ** Operations on tensors used to state further properties *)

Section MoreOps.

Context {T : Type} `{Scalar T}.

(** [t[:, p]]: the columns of [t] in the order of the indices [p]. *)
Definition permute_cols (p : list nat) (t : tensor2 T) : tensor2 T :=
  Tensor2 (shape0 t) (length p)
    (map (fun r => map (fun j => nth j r (s_of_Z 0)) p) (rows t)).

(** [torch.cat([a, b], dim=0)] for two tensors with the same number of
    columns. *)
Definition vstack (a b : tensor2 T) : tensor2 T :=
  Tensor2 (shape0 a + shape0 b) (shape1 a) (rows a ++ rows b).

(** [t[i:i+1]]: the batch made of row [i] alone. *)
Definition single_row (t : tensor2 T) (i : nat) : tensor2 T :=
  Tensor2 1 (shape1 t) [row t i].

End MoreOps.

(** A model whose decoder raises. *)
Definition toy_vae_failing_decoder : VAE R := {|
  latent_dim := 2;
  encoder := toy_encoder 3 2;
  decoder := fun _ => Err RuntimeError
|}.

(** * Properties *)

Ltac shape_tac :=
  unfold has_shape, wf2; simpl; repeat split; repeat constructor.

(** ** Lists *)

Section ListFacts.

Context {A B C D : Type}.

Lemma zip_with_cons (f : A -> B -> C) a b l1 l2 :
  zip_with f (a :: l1) (b :: l2) = f a b :: zip_with f l1 l2.
Proof. reflexivity. Qed.

Lemma zip_with_nil_r (f : A -> B -> C) l1 : zip_with f l1 [] = [].
Proof. destruct l1; reflexivity. Qed.

Lemma zip_with_length (f : A -> B -> C) l1 l2 :
  length (zip_with f l1 l2) = Nat.min (length l1) (length l2).
Proof.
  unfold zip_with. rewrite length_map. apply length_combine.
Qed.

Lemma zip_with_ext (f g : A -> B -> C) l1 l2 :
  (forall a b, f a b = g a b) -> zip_with f l1 l2 = zip_with g l1 l2.
Proof.
  intros Hfg. unfold zip_with. apply map_ext. intros [a b]. apply Hfg.
Qed.

Lemma map_zip_with (h : C -> D) (f : A -> B -> C) l1 l2 :
  map h (zip_with f l1 l2) = zip_with (fun a b => h (f a b)) l1 l2.
Proof. unfold zip_with. apply map_map. Qed.

Lemma nth_zip_with (f : A -> B -> C) l1 l2 i d d1 d2 :
  i < length l1 -> i < length l2 ->
  nth i (zip_with f l1 l2) d = f (nth i l1 d1) (nth i l2 d2).
Proof.
  revert l2 i. induction l1 as [| a l1 IH]; intros [| b l2] i H1 H2;
    simpl in H1, H2; try lia.
  rewrite zip_with_cons. destruct i as [| i]; simpl.
  - reflexivity.
  - apply IH; lia.
Qed.

Lemma nth_map_lt (f : A -> B) l i d d' :
  i < length l -> nth i (map f l) d = f (nth i l d').
Proof.
  revert i. induction l as [| a l IH]; intros i Hi; simpl in Hi; try lia.
  destruct i as [| i]; simpl.
  - reflexivity.
  - apply IH; lia.
Qed.

End ListFacts.

Section ZipFacts.

Context {A B A' B' C D E : Type}.

Lemma zip_with_map (f : A' -> B' -> C) (g : A -> A') (h : B -> B') l1 l2 :
  zip_with f (map g l1) (map h l2) = zip_with (fun a b => f (g a) (h b)) l1 l2.
Proof.
  revert l2. induction l1 as [| a l1 IH]; intros [| b l2]; try reflexivity.
  simpl map. rewrite !zip_with_cons, IH. reflexivity.
Qed.

Lemma zip_with_map_r (f : A -> B' -> C) (h : B -> B') l1 l2 :
  zip_with f l1 (map h l2) = zip_with (fun a b => f a (h b)) l1 l2.
Proof.
  revert l2. induction l1 as [| a l1 IH]; intros [| b l2]; try reflexivity.
  simpl map. rewrite !zip_with_cons, IH. reflexivity.
Qed.

Lemma zip_with_zip_map (f : C -> D -> E) (g : A -> B -> C) (h : A -> D) l1 l2 :
  zip_with f (zip_with g l1 l2) (map h l1) =
  zip_with (fun a b => f (g a b) (h a)) l1 l2.
Proof.
  revert l2. induction l1 as [| a l1 IH]; intros [| b l2]; try reflexivity.
  simpl map. rewrite !zip_with_cons, IH. reflexivity.
Qed.

Lemma zip_with_zip_zip (f : C -> D -> E) (g : A -> B -> C) (h : A -> B -> D) l1 l2 :
  zip_with f (zip_with g l1 l2) (zip_with h l1 l2) =
  zip_with (fun a b => f (g a b) (h a b)) l1 l2.
Proof.
  revert l2. induction l1 as [| a l1 IH]; intros [| b l2]; try reflexivity.
  rewrite !zip_with_cons, IH. reflexivity.
Qed.

End ZipFacts.

Lemma zip_with_seq {A B C : Type} (f : A -> B -> C) (l1 : list A) (l2 : list B) d1 d2 :
  length l1 = length l2 ->
  zip_with f l1 l2 = map (fun i => f (nth i l1 d1) (nth i l2 d2)) (seq 0 (length l1)).
Proof.
  revert l2. induction l1 as [| a l1 IH]; intros [| b l2] Hlen;
    simpl in Hlen; try discriminate; try reflexivity.
  rewrite zip_with_cons. simpl length. simpl seq. simpl map.
  f_equal. rewrite <- seq_shift, map_map. apply IH. lia.
Qed.

Lemma update_nth_length {A : Type} (f : A -> A) (l : list A) (i : nat) :
  length (update_nth i f l) = length l.
Proof.
  revert i. induction l as [| a l IH]; intros [| i]; simpl; auto.
Qed.

Lemma nth_update_nth {A : Type} (f : A -> A) (l : list A) (i : nat) (d : A) :
  i < length l -> nth i (update_nth i f l) d = f (nth i l d).
Proof.
  revert i. induction l as [| a l IH]; intros [| i] Hi; simpl in *; try lia; auto.
  apply IH. lia.
Qed.

(** ** Tensor operations *)

Section TensorFacts.

Context {T : Type} `{Scalar T}.

Lemma broadcast_dim_same (n : nat) : broadcast_dim n n = Some n.
Proof. unfold broadcast_dim. rewrite Nat.eqb_refl. reflexivity. Qed.

Lemma expand_same (t : tensor2 T) : expand (shape0 t) (shape1 t) t = rows t.
Proof. unfold expand. rewrite !Nat.eqb_refl. reflexivity. Qed.

Lemma binop2_same_shape (f : T -> T -> T) (a b : tensor2 T) :
  shape0 a = shape0 b -> shape1 a = shape1 b ->
  binop2 f a b =
  Ok (Tensor2 (shape0 a) (shape1 a) (zip_with (zip_with f) (rows a) (rows b))).
Proof.
  intros H0 H1. unfold binop2. rewrite <- H0, <- H1, !broadcast_dim_same.
  rewrite expand_same.
  replace (expand (shape0 a) (shape1 a) b) with (rows b);
    [ reflexivity | rewrite H0, H1; symmetry; apply expand_same ].
Qed.

Lemma binop1_same_length (f : T -> T -> T) (u v : tensor1 T) :
  length u = length v -> binop1 f u v = Ok (zip_with f u v).
Proof.
  intros Hlen. unfold binop1, expand1.
  rewrite <- Hlen, broadcast_dim_same, Nat.eqb_refl. reflexivity.
Qed.

Lemma same_shape_true (a b : tensor2 T) :
  shape0 a = shape0 b -> shape1 a = shape1 b -> same_shape a b = true.
Proof.
  intros H0 H1. unfold same_shape. rewrite H0, H1, !Nat.eqb_refl. reflexivity.
Qed.

Lemma has_shape_row (t : tensor2 T) (n m i : nat) :
  has_shape t n m -> i < n -> length (row t i) = m.
Proof.
  intros [[Hlen Hrows] [H0 H1]] Hi. unfold row.
  rewrite Forall_forall in Hrows. rewrite <- H1. apply Hrows, nth_In. lia.
Qed.

Lemma has_shape_rows (t : tensor2 T) (n m : nat) :
  has_shape t n m -> length (rows t) = n.
Proof. intros [[Hlen _] [H0 _]]. lia. Qed.

Lemma has_shape_map2d (f : T -> T) (t : tensor2 T) (n m : nat) :
  has_shape t n m -> has_shape (map2d f t) n m.
Proof.
  intros [[Hlen Hrows] [H0 H1]]. unfold has_shape, wf2, map2d. simpl.
  rewrite length_map. repeat split; auto.
  rewrite Forall_forall in *. intros r Hr.
  apply in_map_iff in Hr. destruct Hr as [r' [<- Hr']].
  rewrite length_map. auto.
Qed.

Lemma entry_map2d (f : T -> T) (t : tensor2 T) (n m i j : nat) :
  has_shape t n m -> i < n -> j < m ->
  entry (map2d f t) i j = f (entry t i j).
Proof.
  intros Ht Hi Hj. unfold entry, map2d. simpl.
  rewrite (nth_map_lt (map f) (rows t) [] []) by (rewrite (has_shape_rows Ht); lia).
  apply nth_map_lt. fold (row t i). rewrite (has_shape_row Ht Hi). lia.
Qed.

Lemma has_shape_zip (f : T -> T -> T) (a b : tensor2 T) (n m : nat) :
  has_shape a n m -> has_shape b n m ->
  has_shape (Tensor2 n m (zip_with (zip_with f) (rows a) (rows b))) n m.
Proof.
  intros Ha Hb.
  pose proof (has_shape_rows Ha) as La. pose proof (has_shape_rows Hb) as Lb.
  destruct Ha as [[_ Ra] [_ A1]], Hb as [[_ Rb] [_ B1]].
  unfold has_shape, wf2. simpl. rewrite zip_with_length, La, Lb, Nat.min_id.
  repeat split; auto.
  rewrite Forall_forall in *. intros r Hr. unfold zip_with at 1 in Hr.
  apply in_map_iff in Hr. destruct Hr as [[ra rb] [<- Hin]]. simpl.
  rewrite zip_with_length.
  rewrite (Ra ra), (Rb rb), A1, B1, Nat.min_id;
    eauto using in_combine_l, in_combine_r.
Qed.

Lemma entry_zip (f : T -> T -> T) (a b : tensor2 T) (n m i j : nat) :
  has_shape a n m -> has_shape b n m -> i < n -> j < m ->
  entry (Tensor2 n m (zip_with (zip_with f) (rows a) (rows b))) i j =
  f (entry a i j) (entry b i j).
Proof.
  intros Ha Hb Hi Hj. unfold entry. simpl.
  rewrite (nth_zip_with (zip_with f) (rows a) (rows b) [] [] [])
    by (rewrite ?(has_shape_rows Ha), ?(has_shape_rows Hb); lia).
  apply nth_zip_with.
  - fold (row a i). rewrite (has_shape_row Ha Hi). lia.
  - fold (row b i). rewrite (has_shape_row Hb Hi). lia.
Qed.

Lemma kl_rows_eq (LS MU : list (list T)) :
  map (s_mul (s_of_Q (-1 # 2)))
    (map sum_list
       (zip_with (zip_with s_sub)
          (zip_with (zip_with s_sub)
             (map (map (s_add (s_of_Z 1))) (map (map (s_mul (s_of_Z 2))) LS))
             (map (map (fun v : T => s_pow v 2)) MU))
          (map (map s_exp) (map (map (s_mul (s_of_Z 2))) LS)))) =
  zip_with kl_row LS MU.
Proof.
  rewrite !map_map, zip_with_map, zip_with_zip_map, map_zip_with.
  apply zip_with_ext. intros a b. unfold kl_row.
  rewrite !map_map, zip_with_map, zip_with_zip_map. reflexivity.
Qed.

(** The rows of the result of [kl_divergence]. *)
Lemma kl_divergence_rows (mu logsigma : tensor2 T) (n m : nat) :
  has_shape mu n m -> has_shape logsigma n m ->
  kl_divergence mu logsigma = Ok (zip_with kl_row (rows logsigma) (rows mu)).
Proof.
  intros Hmu Hls.
  pose proof (has_shape_rows Hmu) as Lmu. pose proof (has_shape_rows Hls) as Lls.
  destruct Hmu as [_ [M0 M1]], Hls as [_ [L0 L1]].
  unfold kl_divergence.
  rewrite same_shape_true by congruence. simpl bindR.
  unfold t_sub. rewrite binop2_same_shape by (simpl; congruence). simpl bindR.
  rewrite binop2_same_shape by (simpl; congruence). simpl bindR.
  unfold sum_dim1, scalar_mul1. simpl rows.
  rewrite kl_rows_eq, zip_with_length, Lmu, Lls, M0, Nat.min_id, Nat.eqb_refl.
  reflexivity.
Qed.

End TensorFacts.

(** ** The KL divergence *)

Section KLFacts.

Context {T : Type} `{Scalar T}.

Lemma kl_row_formula (mu logsigma : tensor2 T) (n m i : nat) :
  has_shape mu n m -> has_shape logsigma n m -> i < n ->
  kl_row (row logsigma i) (row mu i) = kl_formula mu logsigma i.
Proof.
  intros Hmu Hls Hi. unfold kl_row, kl_formula, big_sum. f_equal.
  rewrite (zip_with_seq kl_term _ _ (s_of_Z 0) (s_of_Z 0))
    by (rewrite (has_shape_row Hmu Hi), (has_shape_row Hls Hi); reflexivity).
  rewrite (has_shape_row Hls Hi).
  destruct Hmu as [_ [_ ->]]. reflexivity.
Qed.

Lemma entry1_kl_rows (mu logsigma : tensor2 T) (n m i : nat) :
  has_shape mu n m -> has_shape logsigma n m -> i < n ->
  entry1 (zip_with kl_row (rows logsigma) (rows mu)) i =
  kl_row (row logsigma i) (row mu i).
Proof.
  intros Hmu Hls Hi. unfold entry1, row.
  apply nth_zip_with;
    rewrite ?(has_shape_rows Hmu), ?(has_shape_rows Hls); assumption.
Qed.

End KLFacts.

(** C1.  In exact real arithmetic, for [mu] and [logsigma] of shape
    [(batch_size, latent_dim)], [kl_divergence] returns a vector of
    [batch_size] entries, and entry [i] is [-0.5] times the sum over the
    latent dimensions of [1 + 2*logsigma - mu^2 - exp(2*logsigma)] on row
    [i]. *)
Theorem kl_divergence_formula (mu logsigma : tensor2 R) (batch_size latent : nat) :
  has_shape mu batch_size latent ->
  has_shape logsigma batch_size latent ->
  exists kl,
    kl_divergence mu logsigma = Ok kl /\
    length kl = batch_size /\
    forall i, i < batch_size -> entry1 kl i = kl_formula mu logsigma i.
Proof.
  intros Hmu Hls.
  exists (zip_with kl_row (rows logsigma) (rows mu)).
  split; [ | split ].
  - apply (kl_divergence_rows Hmu Hls).
  - rewrite zip_with_length, (has_shape_rows Hmu), (has_shape_rows Hls).
    apply Nat.min_id.
  - intros i Hi.
    rewrite (entry1_kl_rows Hmu Hls Hi). apply (kl_row_formula Hmu Hls Hi).
Qed.

Lemma kl_divergence_formula_witness :
  exists kl,
    kl_divergence ex_mu ex_logsigma = Ok kl /\
    length kl = 1 /\
    forall i, i < 1 -> entry1 kl i = kl_formula ex_mu ex_logsigma i.
Proof.
  apply (@kl_divergence_formula ex_mu ex_logsigma 1 2); shape_tac.
Defined.

(** ** The KL divergence in exact real arithmetic *)

Section RealFacts.

Open Scope R_scope.

Lemma sum_list_R_acc (l : list R) (acc : R) :
  fold_left Rplus l acc = acc + fold_left Rplus l 0.
Proof.
  revert acc. induction l as [| a l IH]; intros acc; simpl.
  - lra.
  - rewrite (IH (acc + a)), (IH (0 + a)). lra.
Qed.

Lemma sum_list_R_cons (a : R) (l : list R) :
  sum_list (a :: l) = a + sum_list l.
Proof.
  unfold sum_list. simpl. rewrite sum_list_R_acc. lra.
Qed.

Lemma sum_list_R_nil : sum_list (@nil R) = 0.
Proof. reflexivity. Qed.

Lemma neg_half_R : s_of_Q (-1 # 2) = - (1 / 2).
Proof. simpl. unfold Q2R. simpl. lra. Qed.

Lemma kl_term_R (l m : R) :
  kl_term l m = 1 + 2 * l - m * m - exp (2 * l).
Proof. unfold kl_term. simpl. lra. Qed.

Lemma kl_term_nonpos (l m : R) : kl_term l m <= 0.
Proof.
  rewrite kl_term_R.
  pose proof (exp_ineq1_le (2 * l)). nra.
Qed.

Lemma kl_term_zero : kl_term 0 0 = 0.
Proof. rewrite kl_term_R. rewrite Rmult_0_r, exp_0. lra. Qed.

Lemma kl_term_double (l m : R) : m <> 0 -> kl_term l (2 * m) < kl_term l m.
Proof. intros Hm. rewrite !kl_term_R. nra. Qed.

Lemma Forall_zip_with {A B C : Type} (f : A -> B -> C)
      (P : A -> Prop) (Q : B -> Prop) (S : C -> Prop) (l1 : list A) (l2 : list B) :
  (forall a b, P a -> Q b -> S (f a b)) ->
  Forall P l1 -> Forall Q l2 -> Forall S (zip_with f l1 l2).
Proof.
  intros Hf H1. revert l2. induction H1 as [| a l1 Pa _ IH]; intros l2 H2.
  - constructor.
  - destruct H2 as [| b l2 Qb H2]; [ constructor | ].
    rewrite zip_with_cons. constructor; auto.
Qed.

Lemma Forall_trivial {A : Type} (l : list A) : Forall (fun _ => True) l.
Proof. induction l; constructor; auto. Qed.


Lemma sum_list_nonpos (l : list R) : Forall (fun v => v <= 0) l -> sum_list l <= 0.
Proof.
  induction 1 as [| a l Ha _ IH].
  - rewrite sum_list_R_nil. lra.
  - rewrite sum_list_R_cons. lra.
Qed.

Lemma sum_list_zero (l : list R) : Forall (fun v => v = 0) l -> sum_list l = 0.
Proof.
  induction 1 as [| a l Ha _ IH].
  - apply sum_list_R_nil.
  - rewrite sum_list_R_cons. lra.
Qed.

Lemma kl_row_nonneg (l m : list R) : 0 <= kl_row l m.
Proof.
  unfold kl_row. rewrite neg_half_R.
  assert (Hs : sum_list (zip_with kl_term l m) <= 0).
  { apply sum_list_nonpos.
    apply (Forall_zip_with kl_term (P := fun _ => True) (Q := fun _ => True)).
    - intros a b _ _. apply kl_term_nonpos.
    - apply Forall_trivial.
    - apply Forall_trivial. }
  simpl. nra.
Qed.

Lemma kl_row_zero (l m : list R) :
  Forall (fun v => v = 0) l -> Forall (fun v => v = 0) m -> kl_row l m = 0.
Proof.
  intros Hl Hm. unfold kl_row.
  rewrite sum_list_zero; [ simpl; lra | ].
  apply (Forall_zip_with kl_term (P := fun v => v = 0) (Q := fun v => v = 0));
    auto.
  intros a b -> ->. apply kl_term_zero.
Qed.


Lemma kl_term_square (l m m' : R) :
  m * m < m' * m' -> kl_term l m' < kl_term l m.
Proof. rewrite !kl_term_R. lra. Qed.

Lemma sum_zip_update_lt (f : R -> R) (l m : list R) (d : nat) :
  (d < length l)%nat -> (d < length m)%nat ->
  nth d m 0 * nth d m 0 < f (nth d m 0) * f (nth d m 0) ->
  sum_list (zip_with kl_term l (update_nth d f m)) <
  sum_list (zip_with kl_term l m).
Proof.
  revert m d. induction l as [| a l IH]; intros [| b m] d Hl Hm Hsq;
    simpl in Hl, Hm; try lia.
  destruct d as [| d]; simpl update_nth; rewrite !zip_with_cons, !sum_list_R_cons.
  - simpl in Hsq. pose proof (@kl_term_square a _ _ Hsq). lra.
  - simpl in Hsq. assert (Hl' : (d < length l)%nat) by lia.
    assert (Hm' : (d < length m)%nat) by lia.
    pose proof (IH m d Hl' Hm' Hsq). lra.
Qed.

Lemma has_shape_update_entry (t : tensor2 R) (n m i d : nat) (f : R -> R) :
  has_shape t n m -> has_shape (update_entry t i d f) n m.
Proof.
  intros [[Hlen Hrows] [H0 H1]]. unfold has_shape, wf2, update_entry. simpl.
  rewrite update_nth_length. repeat split; auto.
  clear Hlen H0. revert i.
  induction Hrows as [| r rs Hr Hrs IH]; intros [| i]; simpl; constructor; auto.
  rewrite update_nth_length. assumption.
Qed.

Lemma row_update_entry (t : tensor2 R) (n m i d : nat) (f : R -> R) :
  has_shape t n m -> (i < n)%nat ->
  row (update_entry t i d f) i = update_nth d f (row t i).
Proof.
  intros Ht Hi. unfold row, update_entry. simpl.
  apply nth_update_nth. rewrite (has_shape_rows Ht). assumption.
Qed.

Lemma kl_entry_update_lt (f : R -> R) (mu logsigma : tensor2 R)
      (batch_size latent i d : nat) :
  has_shape mu batch_size latent ->
  has_shape logsigma batch_size latent ->
  (i < batch_size)%nat -> (d < latent)%nat ->
  entry mu i d * entry mu i d < f (entry mu i d) * f (entry mu i d) ->
  exists kl',
    kl_divergence (update_entry mu i d f) logsigma = Ok kl' /\
    entry1 (zip_with kl_row (rows logsigma) (rows mu)) i < entry1 kl' i.
Proof.
  intros Hmu Hls Hi Hd Hsq.
  pose proof (has_shape_update_entry i d f Hmu) as Hmu'.
  exists (zip_with kl_row (rows logsigma) (rows (update_entry mu i d f))).
  split; [ apply (kl_divergence_rows Hmu' Hls) | ].
  rewrite (entry1_kl_rows Hmu Hls Hi), (entry1_kl_rows Hmu' Hls Hi).
  rewrite (row_update_entry d f Hmu Hi).
  unfold kl_row. rewrite neg_half_R.
  assert (Hlt :
    sum_list (zip_with kl_term (row logsigma i) (update_nth d f (row mu i))) <
    sum_list (zip_with kl_term (row logsigma i) (row mu i))).
  { apply sum_zip_update_lt.
    - rewrite (has_shape_row Hls Hi). assumption.
    - rewrite (has_shape_row Hmu Hi). assumption.
    - exact Hsq. }
  simpl. lra.
Qed.

(** C6, as amended.  In exact real arithmetic, replacing a nonzero
    [mu[i,d]] by [2*mu[i,d]] and keeping every other entry strictly
    increases entry [i] of [kl_divergence]; and entry [i] is strictly
    increasing in [mu[i,d]^2]: replacing [mu[i,d]] by any value with a
    larger square strictly increases it. *)
Theorem kl_divergence_doubling (mu logsigma : tensor2 R)
        (batch_size latent i d : nat) :
  has_shape mu batch_size latent ->
  has_shape logsigma batch_size latent ->
  (i < batch_size)%nat -> (d < latent)%nat ->
  exists kl,
    kl_divergence mu logsigma = Ok kl /\
    (entry mu i d <> 0 ->
     exists kl',
       kl_divergence (update_entry mu i d (Rmult 2)) logsigma = Ok kl' /\
       entry1 kl i < entry1 kl' i) /\
    (forall v,
       entry mu i d * entry mu i d < v * v ->
       exists kl',
         kl_divergence (update_entry mu i d (fun _ => v)) logsigma = Ok kl' /\
         entry1 kl i < entry1 kl' i).
Proof.
  intros Hmu Hls Hi Hd.
  exists (zip_with kl_row (rows logsigma) (rows mu)).
  split; [ apply (kl_divergence_rows Hmu Hls) | split ].
  - intros Hnz. apply (kl_entry_update_lt (Rmult 2) Hmu Hls Hi Hd). nra.
  - intros v Hv. apply (kl_entry_update_lt (fun _ => v) Hmu Hls Hi Hd). exact Hv.
Qed.

End RealFacts.

Lemma kl_divergence_doubling_witness :
  exists kl kl2 kl3,
    kl_divergence ex_mu ex_logsigma = Ok kl /\
    kl_divergence (update_entry ex_mu 0 0 (Rmult 2)) ex_logsigma = Ok kl2 /\
    (entry1 kl 0 < entry1 kl2 0)%R /\
    kl_divergence (update_entry ex_mu 0 0 (fun _ => (-3)%R)) ex_logsigma = Ok kl3 /\
    (entry1 kl 0 < entry1 kl3 0)%R.
Proof.
  destruct (@kl_divergence_doubling ex_mu ex_logsigma 1 2 0 0)
    as [kl [Ekl [Hdouble Hsquare]]];
    [ shape_tac | shape_tac | lia | lia | ].
  destruct Hdouble as [kl2 [Ekl2 Hlt2]]; [ unfold entry; simpl; lra | ].
  destruct (Hsquare (-3)%R) as [kl3 [Ekl3 Hlt3]]; [ unfold entry; simpl; lra | ].
  exists kl, kl2, kl3. repeat split; assumption.
Defined.

(** ** The reparametrized sampler *)

Section SamplerFacts.

Context {T : Type} `{Scalar T} {G : Type} `{Runtime T G}.

Lemma draw_list_length (next : G -> T * G) (m : nat) (g : G) :
  length (fst (draw_list next m g)) = m.
Proof.
  revert g. induction m as [| m IH]; intros g; simpl; [ reflexivity | ].
  destruct (next g) as [v g1]. specialize (IH g1).
  destruct (draw_list next m g1) as [vs g2]. simpl in *. congruence.
Qed.

Lemma draw_rows_length (next : G -> T * G) (n m : nat) (g : G) :
  length (fst (draw_rows next n m g)) = n.
Proof.
  revert g. induction n as [| n IH]; intros g; simpl; [ reflexivity | ].
  destruct (draw_list next m g) as [r g1]. specialize (IH g1).
  destruct (draw_rows next n m g1) as [rs g2]. simpl in *. congruence.
Qed.

Lemma draw_rows_row_length (next : G -> T * G) (n m : nat) (g : G) :
  Forall (fun r => length r = m) (fst (draw_rows next n m g)).
Proof.
  revert g. induction n as [| n IH]; intros g; simpl; [ constructor | ].
  pose proof (draw_list_length next m g) as Hr.
  destruct (draw_list next m g) as [r g1]. specialize (IH g1).
  destruct (draw_rows next n m g1) as [rs g2]. simpl in *.
  constructor; assumption.
Qed.

Lemma noise_has_shape (n m : nat) (g : G) : has_shape (noise n m g) n m.
Proof.
  unfold has_shape, wf2, noise. simpl.
  repeat split; auto using draw_rows_length, draw_rows_row_length.
Qed.

Lemma randn_like_noise (t : tensor2 T) (g : G) :
  randn_like t g =
  (Ok (noise (shape0 t) (shape1 t) g), noise_state (shape0 t) (shape1 t) g).
Proof.
  unfold randn_like, noise, noise_state.
  destruct (draw_rows next_normal (shape0 t) (shape1 t) g). reflexivity.
Qed.

(** Lines 44-45 on three tensors of one shape. *)
Lemma reparametrize_rows (mu logsigma epsilon : tensor2 T) (n m : nat) :
  has_shape mu n m -> has_shape logsigma n m -> has_shape epsilon n m ->
  reparametrize mu logsigma epsilon =
  Ok (Tensor2 n m
        (zip_with (zip_with s_add) (rows mu)
           (zip_with (zip_with s_mul) (rows epsilon) (rows (t_exp logsigma))))).
Proof.
  intros Hmu Hls Heps.
  destruct Hmu as [_ [M0 M1]], Hls as [_ [L0 L1]], Heps as [_ [E0 E1]].
  unfold reparametrize, t_mul, t_add.
  rewrite binop2_same_shape by (simpl; congruence). simpl bindR.
  rewrite binop2_same_shape by (simpl; congruence).
  rewrite M0, M1. reflexivity.
Qed.

Lemma reparametrize_spec (mu logsigma epsilon : tensor2 T) (n m : nat) :
  has_shape mu n m -> has_shape logsigma n m -> has_shape epsilon n m ->
  exists z,
    reparametrize mu logsigma epsilon = Ok z /\
    has_shape z n m /\
    forall i j, i < n -> j < m ->
      entry z i j =
      (entry mu i j + entry epsilon i j * s_exp (entry logsigma i j))%S.
Proof.
  intros Hmu Hls Heps.
  pose proof (has_shape_map2d s_exp Hls) as Hsig. fold (t_exp logsigma) in Hsig.
  pose proof (has_shape_zip s_mul Heps Hsig) as Hes.
  eexists. split; [ apply (reparametrize_rows Hmu Hls Heps) | split ].
  - apply (has_shape_zip s_add Hmu Hes).
  - intros i j Hi Hj.
    rewrite (entry_zip s_add Hmu Hes Hi Hj), (entry_zip s_mul Heps Hsig Hi Hj).
    unfold t_exp. rewrite (entry_map2d s_exp Hls Hi Hj). reflexivity.
Qed.

(** [sample_with_reparametrization] in terms of the noise. *)
Lemma sample_with_reparametrization_noise (mu logsigma z : tensor2 T) (n m : nat) (g : G) :
  has_shape mu n m -> has_shape logsigma n m ->
  reparametrize mu logsigma (noise n m g) = Ok z ->
  sample_with_reparametrization mu logsigma g = (Ok z, noise_state n m g).
Proof.
  intros Hmu Hls Hz.
  destruct (reparametrize_spec Hmu Hls (noise_has_shape n m g))
    as [z' [Hz' [[_ [Z0 Z1]] _]]].
  rewrite Hz in Hz'. injection Hz' as <-.
  destruct Hmu as [_ [M0 M1]], Hls as [_ [L0 L1]].
  unfold sample_with_reparametrization, bind, lift, ret.
  rewrite same_shape_true by congruence. simpl.
  rewrite randn_like_noise, M0, M1, Hz.
  rewrite same_shape_true by congruence. reflexivity.
Qed.

(** C3.  For [mu] and [logsigma] of shape [(batch_size, latent_dim)],
    [sample_with_reparametrization] returns [z] of that shape with
    [z = mu + epsilon * exp(logsigma)] entry by entry, where [epsilon] is
    the tensor of standard normal draws of the generator, which depends on
    the state of the generator and on the shape only; [z] is the value of
    the function [reparametrize] at [mu], [logsigma] and [epsilon]. *)
Theorem sample_with_reparametrization_spec
        (mu logsigma : tensor2 T) (batch_size latent : nat) (g : G) :
  has_shape mu batch_size latent ->
  has_shape logsigma batch_size latent ->
  exists z,
    sample_with_reparametrization mu logsigma g =
      (Ok z, noise_state batch_size latent g) /\
    reparametrize mu logsigma (noise batch_size latent g) = Ok z /\
    has_shape (noise batch_size latent g) batch_size latent /\
    has_shape z batch_size latent /\
    forall i j, i < batch_size -> j < latent ->
      entry z i j =
      (entry mu i j
       + entry (noise batch_size latent g) i j * s_exp (entry logsigma i j))%S.
Proof.
  intros Hmu Hls.
  pose proof (noise_has_shape batch_size latent g) as Heps.
  destruct (reparametrize_spec Hmu Hls Heps) as [z [Hz [Hshape Hentry]]].
  exists z. repeat split; auto; try apply Hshape; try apply Heps.
  apply (sample_with_reparametrization_noise g Hmu Hls Hz).
Qed.

End SamplerFacts.

Lemma sample_with_reparametrization_spec_witness :
  exists z,
    sample_with_reparametrization ex_mu ex_logsigma 0 =
      (Ok z, noise_state (T := R) 1 2 0) /\
    reparametrize ex_mu ex_logsigma (noise 1 2 0) = Ok z /\
    has_shape (noise (T := R) 1 2 0) 1 2 /\
    has_shape z 1 2 /\
    forall i j, i < 1 -> j < 2 ->
      entry z i j =
      (entry ex_mu i j + entry (noise 1 2 0) i j * s_exp (entry ex_logsigma i j))%S.
Proof.
  apply (@sample_with_reparametrization_spec R R_scalar nat toy_runtime
           ex_mu ex_logsigma 1 2 0); shape_tac.
Defined.

(** ** The ELBO estimator *)

Section ElboFacts.

Context {T : Type} `{Scalar T} {G : Type} `{Runtime T G}.

Lemma recon_rows_eq (X TH : list (list T)) :
  map sum_list
    (zip_with (zip_with s_add)
       (zip_with (zip_with s_mul) X (map (map s_log) TH))
       (zip_with (zip_with s_mul)
          (map (map (s_sub (s_of_Z 1))) X)
          (map (map s_log) (map (map (s_sub (s_of_Z 1))) TH)))) =
  zip_with recon_row X TH.
Proof.
  rewrite !map_map, zip_with_map, zip_with_map_r, zip_with_zip_zip, map_zip_with.
  apply zip_with_ext. intros a b. unfold recon_row.
  rewrite !map_map, zip_with_map, zip_with_map_r, zip_with_zip_zip. reflexivity.
Qed.

(** The rows of the reconstruction term of line 90. *)
Lemma reconstruction_rows (x theta : tensor2 T) (n m : nat) :
  has_shape x n m -> has_shape theta n m ->
  reconstruction x theta = Ok (zip_with recon_row (rows x) (rows theta)).
Proof.
  intros [_ [X0 X1]] [_ [T0 T1]].
  unfold reconstruction, t_mul, t_add.
  rewrite binop2_same_shape by (simpl; congruence). simpl bindR.
  rewrite binop2_same_shape by (simpl; congruence). simpl bindR.
  rewrite binop2_same_shape by (simpl; congruence). simpl bindR.
  unfold sum_dim1. simpl rows. rewrite recon_rows_eq. reflexivity.
Qed.


(** The value of [elbo] once the values of its steps are known. *)
Lemma elbo_steps (self : VAE T) (x mu logsigma z theta : tensor2 T)
      (n input_dim : nat) (g : G) :
  has_shape x n input_dim ->
  encoder self x = Ok (mu, logsigma) ->
  has_shape mu n (latent_dim self) ->
  has_shape logsigma n (latent_dim self) ->
  reparametrize mu logsigma (noise n (latent_dim self) g) = Ok z ->
  decoder self z = Ok theta ->
  has_shape theta n input_dim ->
  elbo self x g =
  (Ok (zip_with s_sub
         (zip_with recon_row (rows x) (rows theta))
         (zip_with kl_row (rows logsigma) (rows mu))),
   noise_state n (latent_dim self) g).
Proof.
  intros Hx Henc Hmu Hls Hz Hdec Hth.
  unfold elbo, bind, lift, ret. rewrite Henc. simpl fst. simpl snd.
  rewrite (sample_with_reparametrization_noise g Hmu Hls Hz), Hdec.
  rewrite (reconstruction_rows Hx Hth), (kl_divergence_rows Hmu Hls).
  assert (Hrec : length (zip_with recon_row (rows x) (rows theta)) = n).
  { rewrite zip_with_length, (has_shape_rows Hx), (has_shape_rows Hth).
    apply Nat.min_id. }
  assert (Hkl : length (zip_with kl_row (rows logsigma) (rows mu)) = n).
  { rewrite zip_with_length, (has_shape_rows Hmu), (has_shape_rows Hls).
    apply Nat.min_id. }
  unfold t_sub1. rewrite binop1_same_length by congruence.
  rewrite zip_with_length, Hrec, Hkl, Nat.min_id.
  destruct Hx as [_ [-> _]]. rewrite Nat.eqb_refl. reflexivity.
Qed.

End ElboFacts.

Section ElboSpec.

Context {G : Type} `{Runtime R G}.


End ElboSpec.

(** ** Rows of the batch and the random stream *)

Section BatchFacts.

Context {T : Type} `{Scalar T} {G : Type} `{Runtime T G}.

Lemma has_shape_map_rows (f : list T -> list T) (t : tensor2 T) (n k m : nat) :
  has_shape t n k ->
  (forall r, length r = k -> length (f r) = m) ->
  has_shape (map_rows m f t) n m.
Proof.
  intros [[Hlen Hrows] [S0 S1]] Hf. unfold has_shape, wf2, map_rows. simpl.
  rewrite length_map. repeat split; auto.
  rewrite Forall_forall in *. intros r Hr.
  apply in_map_iff in Hr. destruct Hr as [r' [<- Hr']].
  apply Hf. rewrite <- S1. auto.
Qed.

Lemma row_map_rows (f : list T -> list T) (t : tensor2 T) (n k m i : nat) :
  has_shape t n k -> i < n -> row (map_rows m f t) i = f (row t i).
Proof.
  intros Ht Hi. unfold row, map_rows. simpl.
  apply nth_map_lt. rewrite (has_shape_rows Ht). assumption.
Qed.

Lemma row_map2d (f : T -> T) (t : tensor2 T) (n m i : nat) :
  has_shape t n m -> i < n -> row (map2d f t) i = map f (row t i).
Proof.
  intros Ht Hi. unfold row, map2d. simpl.
  apply nth_map_lt. rewrite (has_shape_rows Ht). assumption.
Qed.

Lemma row_zip (f : T -> T -> T) (a b : tensor2 T) (n m i : nat) :
  has_shape a n m -> has_shape b n m -> i < n ->
  row (Tensor2 n m (zip_with (zip_with f) (rows a) (rows b))) i =
  zip_with f (row a i) (row b i).
Proof.
  intros Ha Hb Hi. unfold row. simpl.
  apply nth_zip_with;
    rewrite ?(has_shape_rows Ha), ?(has_shape_rows Hb); assumption.
Qed.

Lemma rowwise_encoder_contract (self : VAE T) (input_dim : nat) :
  encoder_rowwise self input_dim -> encoder_contract self input_dim.
Proof.
  intros [f_mu [f_ls [Hlen Henc]]] x B Hx.
  exists (map_rows (latent_dim self) f_mu x), (map_rows (latent_dim self) f_ls x).
  split; [ | split ].
  - apply Henc; apply Hx.
  - apply (has_shape_map_rows f_mu Hx). intros r Hr. apply (Hlen r Hr).
  - apply (has_shape_map_rows f_ls Hx). intros r Hr. apply (Hlen r Hr).
Qed.

Lemma rowwise_decoder_contract (self : VAE T) (input_dim : nat) :
  decoder_rowwise self input_dim -> decoder_contract self input_dim.
Proof.
  intros [f_th [Hlen Hdec]] z B Hz.
  exists (map_rows input_dim f_th z). split.
  - apply Hdec; apply Hz.
  - apply (has_shape_map_rows f_th Hz Hlen).
Qed.

(** Entry [i] of [elbo] when the networks act on each row. *)
Lemma elbo_row_entry (self : VAE T) (input_dim batch_size i : nat)
      (f_mu f_ls f_th : list T -> list T) (x : tensor2 T) (g : G) :
  (forall r, length r = input_dim ->
     length (f_mu r) = latent_dim self /\ length (f_ls r) = latent_dim self) ->
  (forall x : tensor2 T, wf2 x -> shape1 x = input_dim ->
     encoder self x =
       Ok (map_rows (latent_dim self) f_mu x, map_rows (latent_dim self) f_ls x)) ->
  (forall r, length r = latent_dim self -> length (f_th r) = input_dim) ->
  (forall z : tensor2 T, wf2 z -> shape1 z = latent_dim self ->
     decoder self z = Ok (map_rows input_dim f_th z)) ->
  has_shape x batch_size input_dim -> i < batch_size ->
  exists out,
    elbo self x g = (Ok out, noise_state batch_size (latent_dim self) g) /\
    entry1 out i =
    (recon_row (row x i)
       (f_th (reparam_row (f_mu (row x i)) (f_ls (row x i))
                (row (noise batch_size (latent_dim self) g) i)))
     - kl_row (f_ls (row x i)) (f_mu (row x i)))%S.
Proof.
  intros Hlen Henc Hlth Hdec Hx Hi.
  set (L := latent_dim self) in *.
  set (mu := map_rows L f_mu x).
  set (ls := map_rows L f_ls x).
  set (eps := noise batch_size L g).
  set (sig := map2d s_exp ls).
  set (es := Tensor2 batch_size L (zip_with (zip_with s_mul) (rows eps) (rows sig))).
  set (z := Tensor2 batch_size L (zip_with (zip_with s_add) (rows mu) (rows es))).
  set (theta := map_rows input_dim f_th z).
  assert (Hmu : has_shape mu batch_size L).
  { apply (has_shape_map_rows f_mu Hx). intros r Hr. apply (Hlen r Hr). }
  assert (Hls : has_shape ls batch_size L).
  { apply (has_shape_map_rows f_ls Hx). intros r Hr. apply (Hlen r Hr). }
  assert (Heps : has_shape eps batch_size L) by apply noise_has_shape.
  assert (Hsig : has_shape sig batch_size L) by apply (has_shape_map2d s_exp Hls).
  assert (Hes : has_shape es batch_size L) by apply (has_shape_zip s_mul Heps Hsig).
  assert (Hz : has_shape z batch_size L) by apply (has_shape_zip s_add Hmu Hes).
  assert (Ez : reparametrize mu ls eps = Ok z)
    by apply (reparametrize_rows Hmu Hls Heps).
  assert (Hth : has_shape theta batch_size input_dim)
    by apply (has_shape_map_rows f_th Hz Hlth).
  exists (zip_with s_sub (zip_with recon_row (rows x) (rows theta))
            (zip_with kl_row (rows ls) (rows mu))).
  split.
  - eapply elbo_steps;
      [ exact Hx | apply Henc; apply Hx | exact Hmu | exact Hls | exact Ez
      | apply Hdec; apply Hz | exact Hth ].
  - unfold entry1.
    rewrite (nth_zip_with s_sub _ _ (s_of_Z 0) (s_of_Z 0) (s_of_Z 0))
      by (rewrite zip_with_length, ?(has_shape_rows Hx), ?(has_shape_rows Hth),
            ?(has_shape_rows Hmu), ?(has_shape_rows Hls), Nat.min_id; assumption).
    rewrite (nth_zip_with recon_row (rows x) (rows theta) (s_of_Z 0) [] [])
      by (rewrite ?(has_shape_rows Hx), ?(has_shape_rows Hth); assumption).
    rewrite (nth_zip_with kl_row (rows ls) (rows mu) (s_of_Z 0) [] [])
      by (rewrite ?(has_shape_rows Hmu), ?(has_shape_rows Hls); assumption).
    fold (row x i). fold (row theta i). fold (row ls i). fold (row mu i).
    unfold theta. rewrite (row_map_rows f_th input_dim Hz Hi).
    unfold z. rewrite (row_zip s_add Hmu Hes Hi).
    unfold es. rewrite (row_zip s_mul Heps Hsig Hi).
    unfold sig. rewrite (row_map2d s_exp Hls Hi).
    unfold mu, ls. rewrite (row_map_rows f_mu L Hx Hi), (row_map_rows f_ls L Hx Hi).
    reflexivity.
Qed.

(** C9.  Entry [i] of [kl_divergence] is the same for two pairs of inputs
    of one shape that agree on row [i]; and, with networks that act on
    each row, entry [i] of [elbo] is the same for two batches of one shape
    that agree on row [i] when the noise drawn for row [i] is the same. *)
Theorem batch_rows_independent
        (self : VAE T) (input_dim batch_size latent i : nat)
        (mu logsigma mu' logsigma' x x' : tensor2 T) (g g' : G) :
  i < batch_size ->
  has_shape mu batch_size latent -> has_shape logsigma batch_size latent ->
  has_shape mu' batch_size latent -> has_shape logsigma' batch_size latent ->
  row mu i = row mu' i -> row logsigma i = row logsigma' i ->
  encoder_rowwise self input_dim -> decoder_rowwise self input_dim ->
  has_shape x batch_size input_dim -> has_shape x' batch_size input_dim ->
  row x i = row x' i ->
  row (noise batch_size (latent_dim self) g) i =
  row (noise batch_size (latent_dim self) g') i ->
  (exists kl kl',
     kl_divergence mu logsigma = Ok kl /\
     kl_divergence mu' logsigma' = Ok kl' /\
     entry1 kl i = entry1 kl' i) /\
  (exists out out',
     fst (elbo self x g) = Ok out /\
     fst (elbo self x' g') = Ok out' /\
     entry1 out i = entry1 out' i).
Proof.
  intros Hi Hmu Hls Hmu' Hls' Rmu Rls Henc Hdec Hx Hx' Rx Rnoise.
  split.
  - exists (zip_with kl_row (rows logsigma) (rows mu)).
    exists (zip_with kl_row (rows logsigma') (rows mu')).
    split; [ | split ].
    + apply (kl_divergence_rows Hmu Hls).
    + apply (kl_divergence_rows Hmu' Hls').
    + rewrite (entry1_kl_rows Hmu Hls Hi), (entry1_kl_rows Hmu' Hls' Hi).
      rewrite Rmu, Rls. reflexivity.
  - destruct Henc as [f_mu [f_ls [Hlen Henc]]].
    destruct Hdec as [f_th [Hlth Hdec]].
    destruct (elbo_row_entry self g Hlen Henc Hlth Hdec Hx Hi) as [out [Eout Hout]].
    destruct (elbo_row_entry self g' Hlen Henc Hlth Hdec Hx' Hi) as [out' [Eout' Hout']].
    exists out, out'. rewrite Eout, Eout'. simpl.
    repeat split. rewrite Hout, Hout', Rx, Rnoise. reflexivity.
Qed.

Lemma sample_with_reparametrization_fst (mu logsigma : tensor2 T) (g : G) :
  fst (sample_with_reparametrization mu logsigma g) =
  (let* _ := typecheck (same_shape mu logsigma) in
   let* z := reparametrize mu logsigma (noise (shape0 mu) (shape1 mu) g) in
   let* _ := typecheck (same_shape z mu) in
   Ok z).
Proof.
  unfold sample_with_reparametrization, bind, lift, ret.
  destruct (typecheck (same_shape mu logsigma)); simpl; [ | reflexivity ].
  rewrite randn_like_noise.
  destruct (reparametrize mu logsigma (noise (shape0 mu) (shape1 mu) g)) as [z |];
    simpl; [ | reflexivity ].
  destruct (typecheck (same_shape z mu)); reflexivity.
Qed.

(** The result of [elbo] as a function of the result of the sampler. *)
Lemma elbo_fst (self : VAE T) (x : tensor2 T) (g : G) :
  fst (elbo self x g) =
  (let* p := encoder self x in
   let* z := fst (sample_with_reparametrization (fst p) (snd p) g) in
   let* theta := decoder self z in
   let* reconstruction_loss := reconstruction x theta in
   let* kl := kl_divergence (fst p) (snd p) in
   let* elbo_mc := t_sub1 reconstruction_loss kl in
   let* _ := typecheck (length elbo_mc =? shape0 x) in
   Ok elbo_mc).
Proof.
  unfold elbo, bind, lift, ret.
  destruct (encoder self x) as [p |]; simpl; [ | reflexivity ].
  destruct (sample_with_reparametrization (fst p) (snd p) g) as [[z |] g1];
    simpl; [ | reflexivity ].
  destruct (decoder self z) as [theta |]; simpl; [ | reflexivity ].
  destruct (reconstruction x theta) as [rec |]; simpl; [ | reflexivity ].
  destruct (kl_divergence (fst p) (snd p)) as [kl |]; simpl; [ | reflexivity ].
  destruct (t_sub1 rec kl) as [out |]; simpl; [ | reflexivity ].
  destruct (typecheck (length out =? shape0 x)); reflexivity.
Qed.

(** C8.  When the seed is reset to the same value before each of two
    calls of [elbo] on the same batch, both calls return the same value;
    and two calls of [elbo] on the same batch return the same value
    whenever the noise drawn by [sample_with_reparametrization] is the
    same, whatever else differs in the state of the generator. *)
Theorem elbo_reseeded (self : VAE T) (x : tensor2 T) (seed : Z) :
  (forall g,
     elbo_twice_reseeded self x seed g =
     match elbo self x (manual_seed seed) with
     | (Ok out, g') => (Ok (out, out), g')
     | (Err e, g') => (Err e, g')
     end) /\
  (forall mu logsigma g1 g2,
     encoder self x = Ok (mu, logsigma) ->
     noise (shape0 mu) (shape1 mu) g1 = noise (shape0 mu) (shape1 mu) g2 ->
     fst (elbo self x g1) = fst (elbo self x g2)).
Proof.
  split.
  - intros g. unfold elbo_twice_reseeded, torch_manual_seed, bind, ret.
    destruct (elbo self x (manual_seed seed)) as [[out | e] g']; reflexivity.
  - intros mu logsigma g1 g2 Henc Hnoise.
    rewrite !elbo_fst, Henc. simpl bindR. simpl fst. simpl snd.
    rewrite !sample_with_reparametrization_fst, Hnoise. reflexivity.
Qed.

End BatchFacts.

(** ** The small instance satisfies the contracts *)

Lemma toy_encoder_rowwise (input_dim latent : nat) :
  encoder_rowwise (toy_vae input_dim latent) input_dim.
Proof.
  exists (fun r => repeat (sum_list r) latent), (fun _ => repeat 0%R latent).
  split.
  - intros r _. simpl. rewrite !repeat_length. split; reflexivity.
  - intros x _ Hx. simpl. unfold toy_encoder.
    rewrite Hx, Nat.eqb_refl. reflexivity.
Qed.

Lemma toy_decoder_rowwise (input_dim latent : nat) :
  decoder_rowwise (toy_vae input_dim latent) input_dim.
Proof.
  exists (fun _ => repeat (1 / 2)%R input_dim).
  split.
  - intros r _. apply repeat_length.
  - intros z _ Hz. simpl in *. unfold toy_decoder.
    rewrite Hz, Nat.eqb_refl. reflexivity.
Qed.

Lemma half_in_open_unit : in_open_unit (1 / 2)%R.
Proof.
  unfold in_open_unit. simpl. unfold Rltb.
  destruct (Rlt_dec 0 (1 / 2)), (Rlt_dec (1 / 2) 1); split;
    try reflexivity; exfalso; lra.
Qed.

Lemma toy_decoder_range (input_dim latent : nat) :
  decoder_range (toy_vae input_dim latent).
Proof.
  intros z theta. simpl. unfold toy_decoder.
  destruct (shape1 z =? latent); [ | discriminate ].
  intros Heq. injection Heq as <-.
  unfold all_entries, map_rows. simpl.
  rewrite Forall_forall. intros r Hr.
  apply in_map_iff in Hr. destruct Hr as [r' [<- _]].
  rewrite Forall_forall. intros p Hp.
  apply repeat_spec in Hp. subst p. apply half_in_open_unit.
Qed.


Lemma batch_rows_independent_witness :
  (exists kl kl',
     kl_divergence ex_x ex_x = Ok kl /\
     kl_divergence ex_x' ex_x' = Ok kl' /\
     entry1 kl 0 = entry1 kl' 0) /\
  (exists out out',
     fst (elbo (toy_vae 3 2) ex_x 0) = Ok out /\
     fst (elbo (toy_vae 3 2) ex_x' 3) = Ok out' /\
     entry1 out 0 = entry1 out' 0).
Proof.
  apply (@batch_rows_independent R R_scalar nat toy_runtime (toy_vae 3 2)
           3 2 3 0 ex_x ex_x ex_x' ex_x' ex_x ex_x' 0 3);
    try shape_tac; try reflexivity.
  - apply toy_encoder_rowwise.
  - apply toy_decoder_rowwise.
Defined.

Lemma elbo_reseeded_witness :
  elbo_twice_reseeded (toy_vae 3 2) ex_x 7 5 =
    match elbo (toy_vae 3 2) ex_x (manual_seed 7) with
    | (Ok out, g') => (Ok (out, out), g')
    | (Err e, g') => (Err e, g')
    end /\
  fst (elbo (toy_vae 3 2) ex_x 0) = fst (elbo (toy_vae 3 2) ex_x 3).
Proof.
  destruct (@elbo_reseeded R R_scalar nat toy_runtime (toy_vae 3 2) ex_x 7)
    as [Hseed Hnoise].
  split.
  - apply Hseed.
  - eapply Hnoise; reflexivity.
Defined.

(** ** The generative sampler *)

Section GenerativeFacts.

Context {T : Type} `{Scalar T} {G : Type} `{Runtime T G}.

Lemma bernoulli_draw_binary (u p : T) : is_zero_or_one (bernoulli_draw u p).
Proof.
  unfold is_zero_or_one, bernoulli_draw. destruct (s_ltb u p); auto.
Qed.

Lemma bernoulli_list_spec (ps : list T) (g : G) :
  length (fst (bernoulli_list ps g)) = length ps /\
  Forall is_zero_or_one (fst (bernoulli_list ps g)).
Proof.
  revert g. induction ps as [| p ps IH]; intros g; simpl.
  - split; [ reflexivity | constructor ].
  - destruct (next_uniform g) as [u g1]. specialize (IH g1).
    destruct (bernoulli_list ps g1) as [xs g2]. simpl in *.
    destruct IH as [Hlen Hbin]. split; [ congruence | ].
    constructor; [ apply bernoulli_draw_binary | assumption ].
Qed.

Lemma bernoulli_rows_spec (m : nat) (rs : list (list T)) (g : G) :
  Forall (fun r => length r = m) rs ->
  length (fst (bernoulli_rows rs g)) = length rs /\
  Forall (fun r => length r = m) (fst (bernoulli_rows rs g)) /\
  Forall (Forall is_zero_or_one) (fst (bernoulli_rows rs g)).
Proof.
  intros Hrs. revert g. induction Hrs as [| r rs Hr _ IH]; intros g; simpl.
  - repeat split; constructor.
  - pose proof (bernoulli_list_spec r g) as [Hlen Hbin].
    destruct (bernoulli_list r g) as [x g1]. specialize (IH g1).
    destruct (bernoulli_rows rs g1) as [xs g2]. simpl in *.
    destruct IH as [Hlens [Hrows Hbins]].
    repeat split; [ congruence | | ]; constructor; auto; congruence.
Qed.

Lemma in_open_unit_probability (p : T) :
  in_open_unit p -> is_probability p = true.
Proof.
  intros [H0p Hp1]. unfold is_probability.
  rewrite (s_ltb_leb _ _ H0p), (s_ltb_leb _ _ Hp1). reflexivity.
Qed.

Lemma probabilities_ok (theta : tensor2 T) :
  all_entries in_open_unit theta ->
  forallb (forallb is_probability) (rows theta) = true.
Proof.
  unfold all_entries. intros Hall.
  apply forallb_forall. intros r Hr.
  rewrite Forall_forall in Hall. specialize (Hall r Hr).
  apply forallb_forall. intros p Hp.
  rewrite Forall_forall in Hall. apply in_open_unit_probability, Hall, Hp.
Qed.

Lemma bernoulli_spec (theta : tensor2 T) (n m : nat) (g : G) :
  has_shape theta n m -> all_entries in_open_unit theta ->
  exists x g',
    bernoulli theta g = (Ok x, g') /\
    has_shape x n m /\ all_entries is_zero_or_one x.
Proof.
  intros [[Hlen Hrows] [S0 S1]] Hall.
  destruct (bernoulli_rows_spec g Hrows) as [Xlen [Xrows Xbin]].
  unfold bernoulli. rewrite (probabilities_ok Hall).
  destruct (bernoulli_rows (rows theta) g) as [xs g'] eqn:E. simpl in *.
  exists (Tensor2 (shape0 theta) (shape1 theta) xs), g'.
  split; [ reflexivity | ].
  unfold has_shape, wf2, all_entries. simpl.
  repeat split; auto. congruence.
Qed.

Lemma randn_nonneg (n : Z) (m : nat) (g : G) :
  (0 <= n)%Z ->
  randn n m g = (Ok (noise (Z.to_nat n) m g), noise_state (Z.to_nat n) m g).
Proof.
  intros Hn. unfold randn, noise, noise_state.
  destruct (Z.ltb_spec n 0); [ lia | ].
  destruct (draw_rows next_normal (Z.to_nat n) m g). reflexivity.
Qed.

Lemma has_shape_zero (t : tensor2 T) (m : nat) :
  has_shape t 0 m -> t = Tensor2 0 m [].
Proof.
  destruct t as [s0 s1 rs]. intros [[Hlen _] [S0 S1]]. simpl in *. subst.
  destruct rs; [ reflexivity | discriminate ].
Qed.

Lemma fits_int64_iff (n : Z) :
  fits_int64 n = true <-> (int64_min <= n <= int64_max)%Z.
Proof.
  unfold fits_int64. rewrite andb_true_iff, !Z.leb_le. reflexivity.
Qed.

Lemma torch_randn_fits (n : Z) (m : nat) (g : G) :
  (0 <= n <= int64_max)%Z ->
  allocation_ok (n * Z.of_nat m) = true ->
  torch_randn n m g = randn n m g.
Proof.
  intros Hn Halloc. unfold torch_randn.
  assert (Hfit : fits_int64 n = true).
  { apply fits_int64_iff. unfold int64_min. split; [ | apply Hn ].
    change (- 2 ^ 63)%Z with (- 9223372036854775808)%Z. lia. }
  rewrite Hfit, Halloc. simpl. rewrite andb_false_r. reflexivity.
Qed.

Lemma torch_randn_zero (m : nat) (g : G) : torch_randn 0 m g = randn 0 m g.
Proof.
  apply torch_randn_fits; [ | reflexivity ].
  unfold int64_max. change (2 ^ 63 - 1)%Z with 9223372036854775807%Z. lia.
Qed.

Lemma torch_randn_negative (n : Z) (m : nat) (g : G) :
  (int64_min <= n < 0)%Z -> torch_randn n m g = (Err RuntimeError, g).
Proof.
  intros Hn. unfold torch_randn.
  assert (Hfit : fits_int64 n = true).
  { apply fits_int64_iff. split; [ apply Hn | ]. unfold int64_max.
    change (2 ^ 63 - 1)%Z with 9223372036854775807%Z. lia. }
  rewrite Hfit. simpl.
  destruct (Z.leb_spec 0 n); [ lia | ]. simpl.
  unfold randn. destruct (Z.ltb_spec n 0); [ reflexivity | lia ].
Qed.

Lemma torch_randn_overflow (n : Z) (m : nat) (g : G) :
  (n < int64_min \/ int64_max < n)%Z -> torch_randn n m g = (Err TypeError, g).
Proof.
  intros Hn. unfold torch_randn.
  destruct (fits_int64 n) eqn:Hfit; [ | reflexivity ].
  apply fits_int64_iff in Hfit. lia.
Qed.

(** A size that does not fit in 64 bits is rejected with [TypeError]
    before anything is drawn. *)
Lemma sample_size_overflow (self : VAE T) (num_samples : Z)
      (device : String.string) (g : G) :
  (num_samples < int64_min \/ int64_max < num_samples)%Z ->
  sample self num_samples device g = (Err TypeError, g).
Proof.
  intros Hn. unfold sample, bind. rewrite (torch_randn_overflow _ _ Hn).
  reflexivity.
Qed.

(** A size that fits in 64 bits but whose tensor cannot be allocated is
    rejected with [RuntimeError] before anything is drawn. *)
Lemma sample_allocation_fails (self : VAE T) (num_samples : Z)
      (device : String.string) (g : G) :
  (0 <= num_samples <= int64_max)%Z ->
  allocation_ok (num_samples * Z.of_nat (latent_dim self)) = false ->
  sample self num_samples device g = (Err RuntimeError, g).
Proof.
  intros Hn Halloc. unfold sample, bind, torch_randn.
  assert (Hfit : fits_int64 num_samples = true).
  { apply fits_int64_iff. unfold int64_min.
    change (- 2 ^ 63)%Z with (- 9223372036854775808)%Z. lia. }
  rewrite Hfit, Halloc.
  destruct (Z.leb_spec 0 num_samples); [ reflexivity | lia ].
Qed.

(** C7, as amended.  For a positive [N] that [torch.randn] accepts as a
    size (it fits in 64 bits and the tensor can be allocated), with a
    decoder that keeps its contract, [sample N "cpu"] returns [z] of shape
    [(N, latent_dim)], [theta] of shape [(N, input_dim)] and [x] of shape
    [(N, input_dim)]; [z] is the tensor of standard normal draws, [theta]
    the value of the decoder at [z] and [x] the Bernoulli draw for
    [theta]; every entry of [x] is 0 or 1 and every entry of [theta] is
    strictly between 0 and 1. *)
Theorem sample_spec (self : VAE T) (input_dim : nat) (N : Z) (g : G) :
  (0 < N <= int64_max)%Z ->
  allocation_ok (N * Z.of_nat (latent_dim self)) = true ->
  decoder_contract self input_dim ->
  decoder_range self ->
  exists z theta x g',
    sample self N "cpu" g = (Ok (z, theta, x), g') /\
    z = noise (Z.to_nat N) (latent_dim self) g /\
    decoder self z = Ok theta /\
    bernoulli theta (noise_state (Z.to_nat N) (latent_dim self) g) = (Ok x, g') /\
    has_shape z (Z.to_nat N) (latent_dim self) /\
    has_shape theta (Z.to_nat N) input_dim /\
    has_shape x (Z.to_nat N) input_dim /\
    all_entries is_zero_or_one x /\
    all_entries in_open_unit theta.
Proof.
  intros HN Halloc Hdec Hrange.
  pose proof (noise_has_shape (Z.to_nat N) (latent_dim self) g) as Hz.
  destruct (Hdec _ _ Hz) as [theta [Eth Hth]].
  pose proof (Hrange _ _ Eth) as Hunit.
  destruct (bernoulli_spec (noise_state (Z.to_nat N) (latent_dim self) g) Hth Hunit)
    as [x [g' [Ex [Hx Hbin]]]].
  exists (noise (Z.to_nat N) (latent_dim self) g), theta, x, g'.
  repeat split; try apply Hz; try apply Hth; try apply Hx; auto.
  unfold sample, bind, lift, ret.
  rewrite torch_randn_fits by (try assumption; lia).
  rewrite randn_nonneg by lia. simpl. rewrite Eth, Ex.
  destruct Hth as [_ [T0 T1]], Hx as [_ [X0 X1]].
  rewrite same_shape_true by congruence.
  rewrite T0, Nat.eqb_refl. reflexivity.
Qed.

(** C10.  With a decoder that keeps its shape contract, [sample 0 "cpu"]
    does not raise: it returns the empty tensors of shapes
    [(0, latent_dim)], [(0, input_dim)] and [(0, input_dim)] and leaves
    the generator as it was. *)
Theorem sample_zero (self : VAE T) (input_dim : nat) (g : G) :
  decoder_contract self input_dim ->
  sample self 0 "cpu" g =
  (Ok (Tensor2 0 (latent_dim self) [], Tensor2 0 input_dim [],
       Tensor2 0 input_dim []), g).
Proof.
  intros Hdec.
  assert (Hz : has_shape (Tensor2 0 (latent_dim self) (@nil (list T))) 0 (latent_dim self))
    by shape_tac.
  destruct (Hdec _ _ Hz) as [theta [Eth Hth]].
  apply has_shape_zero in Hth. subst theta.
  unfold sample, bind. rewrite torch_randn_zero.
  unfold lift, ret. simpl. rewrite Eth.
  unfold bernoulli, same_shape. simpl. rewrite Nat.eqb_refl. reflexivity.
Qed.

(** C4, as amended.  A negative [num_samples] that fits in 64 bits is
    rejected: [torch.randn] raises [RuntimeError] before anything else is
    computed, and the generator is left as it was. *)
Theorem sample_negative (self : VAE T) (num_samples : Z)
        (device : String.string) (g : G) :
  (int64_min <= num_samples < 0)%Z ->
  sample self num_samples device g = (Err RuntimeError, g).
Proof.
  intros Hn. unfold sample, bind. rewrite (torch_randn_negative _ _ Hn).
  reflexivity.
Qed.

End GenerativeFacts.

Lemma sample_spec_witness :
  exists z theta x g',
    sample (toy_vae 3 2) 2 "cpu" 0 = (Ok (z, theta, x), g') /\
    z = noise 2 2 0 /\
    decoder (toy_vae 3 2) z = Ok theta /\
    bernoulli theta (noise_state (T := R) 2 2 0) = (Ok x, g') /\
    has_shape z 2 2 /\
    has_shape theta 2 3 /\
    has_shape x 2 3 /\
    all_entries is_zero_or_one x /\
    all_entries in_open_unit theta.
Proof.
  apply (@sample_spec R R_scalar nat toy_runtime (toy_vae 3 2) 3 2 0).
  - unfold int64_max. change (2 ^ 63 - 1)%Z with 9223372036854775807%Z. lia.
  - reflexivity.
  - apply rowwise_decoder_contract, toy_decoder_rowwise.
  - apply toy_decoder_range.
Defined.

Lemma sample_zero_witness :
  sample (toy_vae 3 2) 0 "cpu" 5 =
  (Ok (Tensor2 0 2 [], Tensor2 0 3 [], Tensor2 0 3 []), 5).
Proof.
  apply (@sample_zero R R_scalar nat toy_runtime (toy_vae 3 2) 3 5).
  apply rowwise_decoder_contract, toy_decoder_rowwise.
Defined.

Lemma sample_negative_witness :
  sample (toy_vae 3 2) (-1) "cpu" 5 = (Err RuntimeError, 5).
Proof.
  apply (@sample_negative R R_scalar nat toy_runtime (toy_vae 3 2) (-1) "cpu" 5).
  unfold int64_min. change (- 2 ^ 63)%Z with (- 9223372036854775808)%Z. lia.
Defined.

(** C4, as stated, fails: [sample] with [num_samples = 0] returns. *)
Lemma zero_samples_not_rejected :
  ~ (forall num_samples : Z,
       (num_samples <= 0)%Z ->
       exists e g', sample (toy_vae 3 2) num_samples "cpu" 5 = (Err e, g')).
Proof.
  intros Hall. destruct (Hall 0%Z) as [e [g' Habs]]; [ lia | ].
  vm_compute in Habs. discriminate Habs.
Qed.

(** C7, as stated for every positive [N], fails: from [2^63] on the size
    does not fit in 64 bits and [sample] raises instead of returning. *)
Lemma huge_sample_not_returned :
  ~ (forall N : Z,
       (0 < N)%Z ->
       exists r g', sample (toy_vae 3 2) N "cpu" 0 = (Ok r, g')).
Proof.
  intros Hall. destruct (Hall (2 ^ 63)%Z) as [r [g' Habs]]; [ reflexivity | ].
  rewrite sample_size_overflow in Habs by (right; reflexivity).
  discriminate Habs.
Qed.

Example sample_allocation_fails_example :
  sample (toy_vae 3 2) (2 ^ 62) "cpu" 0 = (Err RuntimeError, 0).
Proof.
  apply sample_allocation_fails; [ | reflexivity ].
  unfold int64_max. change (2 ^ 63 - 1)%Z with 9223372036854775807%Z.
  change (2 ^ 62)%Z with 4611686018427387904%Z. lia.
Qed.

(** ** The KL divergence in binary32 arithmetic *)

Section Binary32Facts.

Variables (f32_exp f32_log : spec_float -> spec_float)
          (f32_pow : spec_float -> Z -> spec_float).

Let F32 : Scalar spec_float := F32_scalar f32_exp f32_log f32_pow.

Lemma f32_double_overflows :
  SFmul 24 128 (f32_of_Z 2) f32_pow2_127 = S754_infinity false.
Proof. vm_compute. reflexivity. Qed.

Lemma f32_square_underflows :
  SFmul 24 128 f32_pow2_m100 f32_pow2_m100 = S754_zero false /\
  SFmul 24 128 (SFmul 24 128 (f32_of_Z 2) f32_pow2_m100)
               (SFmul 24 128 (f32_of_Z 2) f32_pow2_m100) = S754_zero false.
Proof. split; vm_compute; reflexivity. Qed.




Lemma f32_kl_row_tiny :
  kl_row (H := F32) [S754_zero false] [SFmul 24 128 (f32_of_Z 2) f32_pow2_m100] =
  kl_row (H := F32) [S754_zero false] [f32_pow2_m100].
Proof.
  unfold kl_row. rewrite !zip_with_cons. unfold kl_term.
  replace (@s_pow _ F32 (SFmul 24 128 (f32_of_Z 2) f32_pow2_m100) 2)
    with (S754_zero false) by (symmetry; apply f32_square_underflows).
  replace (@s_pow _ F32 f32_pow2_m100 2)
    with (S754_zero false) by (symmetry; apply f32_square_underflows).
  reflexivity.
Qed.

Lemma f32_kl_tiny :
  kl_divergence (H := F32)
    (update_entry f32_tiny 0 0 (@s_mul _ F32 (@s_of_Z _ F32 2))) f32_zeros =
  kl_divergence (H := F32) f32_tiny f32_zeros.
Proof.
  rewrite (@kl_divergence_rows _ F32 f32_tiny f32_zeros 1 1) by shape_tac.
  rewrite (@kl_divergence_rows _ F32 _ f32_zeros 1 1) by shape_tac.
  change (Ok [kl_row (H := F32) [S754_zero false]
                     [SFmul 24 128 (f32_of_Z 2) f32_pow2_m100]] =
          Ok [kl_row (H := F32) [S754_zero false] [f32_pow2_m100]]).
  rewrite f32_kl_row_tiny. reflexivity.
Qed.






End Binary32Facts.

Lemma SFltb_irrefl (v : spec_float) : SFltb v v = false.
Proof.
  unfold SFltb.
  destruct v as [s | [ | ] | | [ | ] m e]; simpl; try reflexivity;
    rewrite Z.compare_refl, Pos.compare_cont_refl; reflexivity.
Qed.




(** C6, as stated for every nonzero entry, fails in binary32 arithmetic
    whatever [exp], [log] and [pow] are: with [mu = 2^-100] both [mu^2]
    and [(2*mu)^2] underflow to zero and the entry of [kl_divergence] is
    unchanged. *)
Lemma f32_doubling_not_strict :
  ~ (exists (f32_exp f32_log : spec_float -> spec_float)
            (f32_pow : spec_float -> Z -> spec_float),
       forall (mu logsigma : tensor2 spec_float) (batch_size latent i d : nat),
         has_shape mu batch_size latent ->
         has_shape logsigma batch_size latent ->
         i < batch_size -> d < latent ->
         SFeqb (entry (H := F32_scalar f32_exp f32_log f32_pow) mu i d)
               (S754_zero false) = false ->
         exists kl kl',
           kl_divergence (H := F32_scalar f32_exp f32_log f32_pow) mu logsigma
             = Ok kl /\
           kl_divergence (H := F32_scalar f32_exp f32_log f32_pow)
             (update_entry mu i d (SFmul 24 128 (f32_of_Z 2))) logsigma = Ok kl' /\
           SFltb (entry1 (H := F32_scalar f32_exp f32_log f32_pow) kl i)
                 (entry1 (H := F32_scalar f32_exp f32_log f32_pow) kl' i) = true).
Proof.
  intros [f32_exp [f32_log [f32_pow Hall]]].
  destruct (Hall f32_tiny f32_zeros 1 1 0 0)
    as [kl [kl' [Ekl [Ekl' Hlt]]]]; try shape_tac.
  pose proof (f32_kl_tiny f32_exp f32_log f32_pow) as Hsame.
  change (@s_mul _ (F32_scalar f32_exp f32_log f32_pow)
            (@s_of_Z _ (F32_scalar f32_exp f32_log f32_pow) 2))
    with (SFmul 24 128 (f32_of_Z 2)) in Hsame.
  rewrite Ekl, Ekl' in Hsame. injection Hsame as ->.
  rewrite SFltb_irrefl in Hlt. discriminate Hlt.
Qed.

(** ** Evaluations on the sample tensors *)

Example kl_divergence_example :
  kl_divergence ex_mu ex_logsigma = Ok [5 / 2]%R.
Proof.
  rewrite (@kl_divergence_rows R R_scalar ex_mu ex_logsigma 1 2) by shape_tac.
  simpl. unfold kl_row. rewrite neg_half_R.
  rewrite !zip_with_cons, !zip_with_nil_r, !sum_list_R_cons, sum_list_R_nil, !kl_term_R.
  rewrite Rmult_0_r, exp_0. do 2 f_equal. simpl. lra.
Qed.

Example kl_divergence_shape_mismatch :
  kl_divergence ex_mu ex_x = Err TypeError.
Proof. reflexivity. Qed.

Example t_add_broadcast :
  t_add ex_mu (Tensor2 1 1 [[10]]%R) = Ok (Tensor2 1 2 [[11; 12]]%R).
Proof.
  unfold t_add, binop2. simpl. do 2 f_equal.
  unfold zip_with. simpl. repeat f_equal; lra.
Qed.

Example t_add_shape_mismatch : t_add ex_mu ex_x = Err RuntimeError.
Proof. reflexivity. Qed.

Example reconstruction_example :
  reconstruction (full 1 3 1%R) (full 1 3 (1 / 2)%R) = Ok [3 * ln (1 / 2)]%R.
Proof.
  rewrite (@reconstruction_rows R R_scalar _ _ 1 3) by shape_tac.
  simpl. unfold recon_row.
  rewrite !zip_with_cons, !zip_with_nil_r, !sum_list_R_cons, sum_list_R_nil.
  unfold recon_term. simpl.
  replace (1 - 1 / 2)%R with (1 / 2)%R by lra.
  do 2 f_equal. lra.
Qed.

Example sample_negative_example :
  sample (toy_vae 3 2) (-3) "cuda" 5 = (Err RuntimeError, 5).
Proof. reflexivity. Qed.

(** * Further properties *)

(** ** Outcomes of the shape checks *)

Section OutcomeFacts.

Context {T : Type} `{Scalar T} {G : Type} `{Runtime T G}.

Lemma wf2_has_shape (t : tensor2 T) : wf2 t -> has_shape t (shape0 t) (shape1 t).
Proof. intros Ht. repeat split; apply Ht. Qed.

Lemma same_shape_eq (a b : tensor2 T) :
  same_shape a b = true -> shape0 a = shape0 b /\ shape1 a = shape1 b.
Proof.
  unfold same_shape. intros Hs. apply andb_true_iff in Hs.
  destruct Hs as [S0 S1]. apply Nat.eqb_eq in S0. apply Nat.eqb_eq in S1. auto.
Qed.

Lemma same_shape_has_shape (a b : tensor2 T) :
  wf2 b -> same_shape a b = true -> has_shape b (shape0 a) (shape1 a).
Proof.
  intros Hb Hs. apply same_shape_eq in Hs. destruct Hs as [S0 S1].
  repeat split; try apply Hb; congruence.
Qed.

(** X1.  On two well-formed tensors [kl_divergence] raises exactly when
    their shapes differ, the exception is [TypeError], and otherwise the
    result has one entry for each row of [mu]. *)
Theorem kl_divergence_outcome (mu logsigma : tensor2 T) :
  wf2 mu -> wf2 logsigma ->
  match kl_divergence mu logsigma with
  | Ok kl => same_shape mu logsigma = true /\ length kl = shape0 mu
  | Err e => e = TypeError /\ same_shape mu logsigma = false
  end.
Proof.
  intros Hmu Hls. destruct (same_shape mu logsigma) eqn:Hs.
  - pose proof (wf2_has_shape Hmu) as Smu.
    pose proof (same_shape_has_shape mu Hls Hs) as Sls.
    rewrite (kl_divergence_rows Smu Sls). split; [ reflexivity | ].
    rewrite zip_with_length, (has_shape_rows Smu), (has_shape_rows Sls).
    apply Nat.min_id.
  - unfold kl_divergence. rewrite Hs. simpl. split; reflexivity.
Qed.

(** X2.  On two well-formed tensors [sample_with_reparametrization]
    raises exactly when their shapes differ; the exception is [TypeError]
    and the generator is left as it was.  Otherwise the result has the
    shape of [mu] and the generator has advanced by the noise draw. *)
Theorem sample_with_reparametrization_outcome (mu logsigma : tensor2 T) (g : G) :
  wf2 mu -> wf2 logsigma ->
  match sample_with_reparametrization mu logsigma g with
  | (Ok z, g') =>
      same_shape mu logsigma = true /\
      has_shape z (shape0 mu) (shape1 mu) /\
      g' = noise_state (shape0 mu) (shape1 mu) g
  | (Err e, g') =>
      e = TypeError /\ same_shape mu logsigma = false /\ g' = g
  end.
Proof.
  intros Hmu Hls. destruct (same_shape mu logsigma) eqn:Hs.
  - pose proof (wf2_has_shape Hmu) as Smu.
    pose proof (same_shape_has_shape mu Hls Hs) as Sls.
    destruct (reparametrize_spec Smu Sls (noise_has_shape (shape0 mu) (shape1 mu) g))
      as [z [Ez [Sz _]]].
    rewrite (sample_with_reparametrization_noise g Smu Sls Ez).
    repeat split; apply Sz.
  - unfold sample_with_reparametrization, bind, lift. rewrite Hs. simpl.
    repeat split.
Qed.

(** X3.  When the decoder raises, [elbo] raises the same exception, and
    the generator has already advanced by the noise draw of
    [sample_with_reparametrization]. *)
Theorem elbo_decoder_raises (self : VAE T) (x mu logsigma z : tensor2 T)
        (n : nat) (e : error) (g : G) :
  encoder self x = Ok (mu, logsigma) ->
  has_shape mu n (latent_dim self) ->
  has_shape logsigma n (latent_dim self) ->
  reparametrize mu logsigma (noise n (latent_dim self) g) = Ok z ->
  decoder self z = Err e ->
  elbo self x g = (Err e, noise_state n (latent_dim self) g).
Proof.
  intros Henc Hmu Hls Hz Hdec.
  unfold elbo, bind, lift. rewrite Henc. simpl fst. simpl snd.
  rewrite (sample_with_reparametrization_noise g Hmu Hls Hz), Hdec. reflexivity.
Qed.

End OutcomeFacts.

Lemma kl_divergence_outcome_witness :
  match kl_divergence ex_mu ex_x with
  | Ok kl => same_shape ex_mu ex_x = true /\ length kl = shape0 ex_mu
  | Err e => e = TypeError /\ same_shape ex_mu ex_x = false
  end.
Proof.
  apply (@kl_divergence_outcome R R_scalar ex_mu ex_x); unfold wf2; simpl;
    repeat split; repeat constructor.
Defined.

Lemma sample_with_reparametrization_outcome_witness :
  match sample_with_reparametrization ex_mu ex_x 4 with
  | (Ok z, g') =>
      same_shape ex_mu ex_x = true /\
      has_shape z (shape0 ex_mu) (shape1 ex_mu) /\
      g' = noise_state (T := R) (shape0 ex_mu) (shape1 ex_mu) 4
  | (Err e, g') =>
      e = TypeError /\ same_shape ex_mu ex_x = false /\ g' = 4
  end.
Proof.
  apply (@sample_with_reparametrization_outcome R R_scalar nat toy_runtime
           ex_mu ex_x 4); unfold wf2; simpl; repeat split; repeat constructor.
Defined.

Lemma elbo_decoder_raises_witness :
  elbo toy_vae_failing_decoder ex_x 0 =
  (Err RuntimeError, noise_state (T := R) 2 2 0).
Proof.
  eapply (@elbo_decoder_raises R R_scalar nat toy_runtime
            toy_vae_failing_decoder ex_x _ _ _ 2 RuntimeError 0).
  - reflexivity.
  - shape_tac.
  - shape_tac.
  - reflexivity.
  - reflexivity.
Defined.

(** ** Further properties of the KL divergence *)

Lemma zip_with_app {A B C : Type} (f : A -> B -> C) (a1 a2 : list A) (b1 b2 : list B) :
  length a1 = length b1 ->
  zip_with f (a1 ++ a2) (b1 ++ b2) = zip_with f a1 b1 ++ zip_with f a2 b2.
Proof.
  revert b1. induction a1 as [| x a1 IH]; intros [| y b1] Hlen;
    simpl in Hlen; try discriminate; [ reflexivity | ].
  simpl app. rewrite !zip_with_cons, IH by lia. reflexivity.
Qed.

Lemma zip_with_map_same {A B C D : Type} (f : B -> C -> D) (g : A -> B) (h : A -> C)
      (l : list A) :
  zip_with f (map g l) (map h l) = map (fun x => f (g x) (h x)) l.
Proof.
  induction l as [| a l IH]; [ reflexivity | ].
  simpl map. rewrite zip_with_cons, IH. reflexivity.
Qed.

Lemma zip_with_ext_Forall {A B C : Type} (f g : A -> B -> C)
      (P : A -> Prop) (Q : B -> Prop) (l1 : list A) (l2 : list B) :
  (forall a b, P a -> Q b -> f a b = g a b) ->
  Forall P l1 -> Forall Q l2 -> zip_with f l1 l2 = zip_with g l1 l2.
Proof.
  intros Hfg H1. revert l2. induction H1 as [| a l1 Pa _ IH]; intros l2 H2.
  - reflexivity.
  - destruct H2 as [| b l2 Qb H2]; [ reflexivity | ].
    rewrite !zip_with_cons, (Hfg a b Pa Qb), (IH l2 H2). reflexivity.
Qed.

Section KLBatchFacts.

Context {T : Type} `{Scalar T}.

Lemma has_shape_vstack (a b : tensor2 T) (n1 n2 m : nat) :
  has_shape a n1 m -> has_shape b n2 m -> has_shape (vstack a b) (n1 + n2) m.
Proof.
  intros [[La Ra] [A0 A1]] [[Lb Rb] [B0 B1]].
  rewrite A1 in Ra. rewrite B1 in Rb.
  unfold has_shape, wf2, vstack. simpl.
  rewrite length_app, La, Lb, A0, B0, A1. repeat split.
  apply Forall_app. split; assumption.
Qed.

(** X4.  [kl_divergence] of two batches stacked one under the other is
    the result for the first batch followed by the result for the
    second. *)
Theorem kl_divergence_vstack (mu1 logsigma1 mu2 logsigma2 : tensor2 T)
        (n1 n2 latent : nat) :
  has_shape mu1 n1 latent -> has_shape logsigma1 n1 latent ->
  has_shape mu2 n2 latent -> has_shape logsigma2 n2 latent ->
  exists kl1 kl2,
    kl_divergence mu1 logsigma1 = Ok kl1 /\
    kl_divergence mu2 logsigma2 = Ok kl2 /\
    kl_divergence (vstack mu1 mu2) (vstack logsigma1 logsigma2) = Ok (kl1 ++ kl2).
Proof.
  intros Hm1 Hl1 Hm2 Hl2.
  exists (zip_with kl_row (rows logsigma1) (rows mu1)).
  exists (zip_with kl_row (rows logsigma2) (rows mu2)).
  split; [ apply (kl_divergence_rows Hm1 Hl1) | ].
  split; [ apply (kl_divergence_rows Hm2 Hl2) | ].
  rewrite (kl_divergence_rows (has_shape_vstack Hm1 Hm2) (has_shape_vstack Hl1 Hl2)).
  unfold vstack. simpl rows.
  rewrite zip_with_app
    by (rewrite (has_shape_rows Hm1), (has_shape_rows Hl1); reflexivity).
  reflexivity.
Qed.

End KLBatchFacts.

Lemma kl_divergence_vstack_witness :
  exists kl1 kl2,
    kl_divergence ex_mu ex_logsigma = Ok kl1 /\
    kl_divergence ex_logsigma ex_mu = Ok kl2 /\
    kl_divergence (vstack ex_mu ex_logsigma) (vstack ex_logsigma ex_mu) =
      Ok (kl1 ++ kl2).
Proof.
  apply (@kl_divergence_vstack R R_scalar ex_mu ex_logsigma ex_logsigma ex_mu 1 1 2);
    shape_tac.
Defined.

Section KLRealMore.

Open Scope R_scope.

Lemma kl_term_zero_iff (l m : R) : kl_term l m = 0 <-> l = 0 /\ m = 0.
Proof.
  rewrite kl_term_R. split.
  - intros Hz. destruct (Req_dec l 0) as [Hl | Hl].
    + subst l. rewrite Rmult_0_r, exp_0 in Hz. split; [ reflexivity | nra ].
    + assert (H2l : 2 * l <> 0) by lra.
      pose proof (exp_ineq1 (2 * l) H2l). exfalso. nra.
  - intros [-> ->]. rewrite Rmult_0_r, exp_0. lra.
Qed.

Lemma sum_list_nonpos_zero (l : list R) :
  Forall (fun v => v <= 0) l -> sum_list l = 0 -> Forall (fun v => v = 0) l.
Proof.
  induction 1 as [| a l Ha Hl IH]; intros Hs; [ constructor | ].
  rewrite sum_list_R_cons in Hs. pose proof (sum_list_nonpos Hl).
  constructor; [ lra | apply IH; lra ].
Qed.

Lemma kl_terms_nonpos (l m : list R) :
  Forall (fun v => v <= 0) (zip_with kl_term l m).
Proof.
  apply (Forall_zip_with kl_term (P := fun _ => True) (Q := fun _ => True));
    auto using Forall_trivial.
  intros a b _ _. apply kl_term_nonpos.
Qed.

Lemma kl_terms_zero_inv (l m : list R) :
  length l = length m ->
  Forall (fun v => v = 0) (zip_with kl_term l m) ->
  Forall (fun v => v = 0) l /\ Forall (fun v => v = 0) m.
Proof.
  revert m. induction l as [| a l IH]; intros [| b m] Hlen Hz;
    simpl in Hlen; try discriminate.
  - split; constructor.
  - rewrite zip_with_cons in Hz. inversion Hz as [| v vs Hv Hvs]. subst.
    apply kl_term_zero_iff in Hv. destruct Hv as [-> ->].
    destruct (IH m) as [Hl Hm]; [ lia | assumption | ].
    split; constructor; auto.
Qed.

Lemma kl_row_zero_iff (l m : list R) :
  length l = length m ->
  kl_row l m = 0 <-> Forall (fun v => v = 0) l /\ Forall (fun v => v = 0) m.
Proof.
  intros Hlen. split.
  - intros Hz. apply kl_terms_zero_inv; [ assumption | ].
    apply sum_list_nonpos_zero; [ apply kl_terms_nonpos | ].
    unfold kl_row in Hz. rewrite neg_half_R in Hz. simpl in Hz. lra.
  - intros [Hl Hm]. apply kl_row_zero; assumption.
Qed.

(** X5.  In exact real arithmetic entry [i] of [kl_divergence] is 0
    exactly when every entry of row [i] of [mu] and of [logsigma] is 0. *)
Theorem kl_divergence_zero_iff (mu logsigma : tensor2 R)
        (batch_size latent i : nat) :
  has_shape mu batch_size latent ->
  has_shape logsigma batch_size latent ->
  (i < batch_size)%nat ->
  exists kl,
    kl_divergence mu logsigma = Ok kl /\
    (entry1 kl i = 0 <->
     Forall (fun v => v = 0) (row mu i) /\
     Forall (fun v => v = 0) (row logsigma i)).
Proof.
  intros Hmu Hls Hi.
  exists (zip_with kl_row (rows logsigma) (rows mu)).
  split; [ apply (kl_divergence_rows Hmu Hls) | ].
  rewrite (entry1_kl_rows Hmu Hls Hi).
  rewrite kl_row_zero_iff
    by (rewrite (has_shape_row Hmu Hi), (has_shape_row Hls Hi); reflexivity).
  tauto.
Qed.

Lemma kl_term_opp (l m : R) : kl_term l (- m) = kl_term l m.
Proof. rewrite !kl_term_R. lra. Qed.

(** X6.  In exact real arithmetic [kl_divergence] does not depend on the
    sign of [mu]: negating every entry of [mu] gives the same result. *)
Theorem kl_divergence_even (mu logsigma : tensor2 R) (batch_size latent : nat) :
  has_shape mu batch_size latent ->
  has_shape logsigma batch_size latent ->
  kl_divergence (map2d Ropp mu) logsigma = kl_divergence mu logsigma.
Proof.
  intros Hmu Hls.
  rewrite (kl_divergence_rows (has_shape_map2d Ropp Hmu) Hls).
  rewrite (kl_divergence_rows Hmu Hls).
  unfold map2d. simpl rows. rewrite zip_with_map_r. f_equal.
  apply zip_with_ext. intros l m. unfold kl_row.
  rewrite zip_with_map_r. do 2 f_equal.
  apply zip_with_ext. intros a b. apply kl_term_opp.
Qed.

Lemma sum_list_R_perm (l l' : list R) :
  Permutation l l' -> sum_list l = sum_list l'.
Proof.
  induction 1 as [| a l l' _ IH | a b l | l l' l'' _ IH1 _ IH2].
  - reflexivity.
  - rewrite !sum_list_R_cons, IH. reflexivity.
  - rewrite !sum_list_R_cons. lra.
  - congruence.
Qed.

Lemma kl_row_permute (p : list nat) (l m : list R) (latent : nat) :
  Permutation p (seq 0 latent) ->
  length l = latent -> length m = latent ->
  kl_row (map (fun j => nth j l 0) p) (map (fun j => nth j m 0) p) = kl_row l m.
Proof.
  intros Hp Hl Hm. unfold kl_row. f_equal.
  rewrite zip_with_map_same.
  rewrite (zip_with_seq kl_term l m 0 0) by congruence.
  rewrite Hl. apply sum_list_R_perm, Permutation_map, Hp.
Qed.

Lemma has_shape_permute_cols (p : list nat) (t : tensor2 R) (n m : nat) :
  has_shape t n m -> has_shape (permute_cols p t) n (length p).
Proof.
  intros [[Hlen Hrows] [S0 S1]]. unfold has_shape, wf2, permute_cols. simpl.
  rewrite length_map. repeat split; auto.
  rewrite Forall_forall. intros r Hr.
  apply in_map_iff in Hr. destruct Hr as [r' [<- _]]. apply length_map.
Qed.

(** X7.  In exact real arithmetic [kl_divergence] does not depend on the
    order of the latent dimensions: applying one permutation to the
    columns of [mu] and of [logsigma] gives the same result. *)
Theorem kl_divergence_permute_cols (p : list nat) (mu logsigma : tensor2 R)
        (batch_size latent : nat) :
  Permutation p (seq 0 latent) ->
  has_shape mu batch_size latent ->
  has_shape logsigma batch_size latent ->
  kl_divergence (permute_cols p mu) (permute_cols p logsigma) =
  kl_divergence mu logsigma.
Proof.
  intros Hp Hmu Hls.
  rewrite (kl_divergence_rows (has_shape_permute_cols p Hmu)
             (has_shape_permute_cols p Hls)).
  rewrite (kl_divergence_rows Hmu Hls).
  unfold permute_cols. simpl rows. rewrite zip_with_map. f_equal.
  destruct Hmu as [[_ Rmu] [_ Smu]], Hls as [[_ Rls] [_ Sls]].
  rewrite Smu in Rmu. rewrite Sls in Rls.
  apply (zip_with_ext_Forall _ _ (P := fun r => length r = latent)
           (Q := fun r => length r = latent)); auto.
  intros l m Hl Hm. apply kl_row_permute with (latent := latent); assumption.
Qed.

End KLRealMore.

Lemma kl_divergence_zero_iff_witness :
  exists kl,
    kl_divergence ex_mu ex_logsigma = Ok kl /\
    (entry1 kl 0 = 0%R <->
     Forall (fun v => v = 0%R) (row ex_mu 0) /\
     Forall (fun v => v = 0%R) (row ex_logsigma 0)).
Proof.
  apply (@kl_divergence_zero_iff ex_mu ex_logsigma 1 2 0); try shape_tac.
Defined.

Lemma kl_divergence_even_witness :
  kl_divergence (map2d Ropp ex_mu) ex_logsigma = kl_divergence ex_mu ex_logsigma.
Proof.
  apply (@kl_divergence_even ex_mu ex_logsigma 1 2); shape_tac.
Defined.

Lemma kl_divergence_permute_cols_witness :
  kl_divergence (permute_cols [1; 0] ex_mu) (permute_cols [1; 0] ex_logsigma) =
  kl_divergence ex_mu ex_logsigma.
Proof.
  apply (@kl_divergence_permute_cols [1; 0] ex_mu ex_logsigma 1 2);
    [ apply perm_swap | shape_tac | shape_tac ].
Defined.

Section KLRealBounds.

Open Scope R_scope.

Lemma sum_list_map_le (f g : nat -> R) (l : list nat) :
  (forall d, In d l -> f d <= g d) ->
  sum_list (map f l) <= sum_list (map g l).
Proof.
  induction l as [| a l IH]; intros Hfg; simpl map.
  - lra.
  - rewrite !sum_list_R_cons.
    assert (f a <= g a) by (apply Hfg; left; reflexivity).
    assert (sum_list (map f l) <= sum_list (map g l))
      by (apply IH; intros d Hd; apply Hfg; right; assumption).
    lra.
Qed.

Lemma sum_list_map_opp (f : nat -> R) (l : list nat) :
  sum_list (map (fun d => - f d) l) = - sum_list (map f l).
Proof.
  induction l as [| a l IH]; simpl map.
  - rewrite sum_list_R_nil. lra.
  - rewrite !sum_list_R_cons, IH. lra.
Qed.

Lemma Forall_zero_nth (l : list R) (d : nat) :
  Forall (fun v => v = 0) l -> nth d l 0 = 0.
Proof.
  intros Hl. revert d. induction Hl as [| a l Ha _ IH]; intros [| d]; simpl; auto.
Qed.

Lemma kl_formula_R (mu logsigma : tensor2 R) (i : nat) :
  kl_formula mu logsigma i =
  - (1 / 2) * sum_list (map (fun d => kl_term (entry logsigma i d) (entry mu i d))
                          (seq 0 (shape1 mu))).
Proof. unfold kl_formula, big_sum. rewrite neg_half_R. reflexivity. Qed.

(** X8.  In exact real arithmetic entry [i] of [kl_divergence] does not
    decrease when the absolute values of the entries of row [i] of [mu]
    grow, [logsigma] being the same. *)
Theorem kl_divergence_monotone_mu (mu mu' logsigma : tensor2 R)
        (batch_size latent i : nat) :
  has_shape mu batch_size latent ->
  has_shape mu' batch_size latent ->
  has_shape logsigma batch_size latent ->
  (i < batch_size)%nat ->
  (forall d, (d < latent)%nat -> Rabs (entry mu i d) <= Rabs (entry mu' i d)) ->
  exists kl kl',
    kl_divergence mu logsigma = Ok kl /\
    kl_divergence mu' logsigma = Ok kl' /\
    entry1 kl i <= entry1 kl' i.
Proof.
  intros Hmu Hmu' Hls Hi Habs.
  exists (zip_with kl_row (rows logsigma) (rows mu)).
  exists (zip_with kl_row (rows logsigma) (rows mu')).
  split; [ apply (kl_divergence_rows Hmu Hls) | ].
  split; [ apply (kl_divergence_rows Hmu' Hls) | ].
  rewrite (entry1_kl_rows Hmu Hls Hi), (entry1_kl_rows Hmu' Hls Hi).
  rewrite (kl_row_formula Hmu Hls Hi), (kl_row_formula Hmu' Hls Hi).
  rewrite !kl_formula_R.
  destruct Hmu as [_ [_ ->]], Hmu' as [_ [_ ->]].
  assert (Hsum :
    sum_list (map (fun d => kl_term (entry logsigma i d) (entry mu' i d)) (seq 0 latent)) <=
    sum_list (map (fun d => kl_term (entry logsigma i d) (entry mu i d)) (seq 0 latent))).
  { apply sum_list_map_le. intros d Hd. apply in_seq in Hd.
    assert (Hd' : (d < latent)%nat) by lia.
    pose proof (Rsqr_le_abs_1 _ _ (Habs d Hd')) as Hsq. unfold Rsqr in Hsq.
    rewrite !kl_term_R. lra. }
  lra.
Qed.

(** X9.  In exact real arithmetic entry [i] of [kl_divergence] is at least
    half the sum of the squares of row [i] of [mu], and equal to it when
    row [i] of [logsigma] is 0. *)
Theorem kl_divergence_half_norm (mu logsigma : tensor2 R)
        (batch_size latent i : nat) :
  has_shape mu batch_size latent ->
  has_shape logsigma batch_size latent ->
  (i < batch_size)%nat ->
  exists kl,
    kl_divergence mu logsigma = Ok kl /\
    1 / 2 * sum_list (map (fun d => entry mu i d * entry mu i d) (seq 0 latent))
      <= entry1 kl i /\
    (Forall (fun v => v = 0) (row logsigma i) ->
     entry1 kl i =
     1 / 2 * sum_list (map (fun d => entry mu i d * entry mu i d) (seq 0 latent))).
Proof.
  intros Hmu Hls Hi.
  exists (zip_with kl_row (rows logsigma) (rows mu)).
  split; [ apply (kl_divergence_rows Hmu Hls) | ].
  rewrite (entry1_kl_rows Hmu Hls Hi), (kl_row_formula Hmu Hls Hi), kl_formula_R.
  destruct Hmu as [_ [_ ->]].
  pose proof (sum_list_map_opp (fun d => entry mu i d * entry mu i d) (seq 0 latent))
    as Hopp.
  split.
  - assert (Hsum :
      sum_list (map (fun d => kl_term (entry logsigma i d) (entry mu i d)) (seq 0 latent)) <=
      sum_list (map (fun d => - (entry mu i d * entry mu i d)) (seq 0 latent))).
    { apply sum_list_map_le. intros d _. rewrite kl_term_R.
      pose proof (exp_ineq1_le (2 * entry logsigma i d)). lra. }
    lra.
  - intros Hzero.
    assert (Heq :
      map (fun d => kl_term (entry logsigma i d) (entry mu i d)) (seq 0 latent) =
      map (fun d => - (entry mu i d * entry mu i d)) (seq 0 latent)).
    { apply map_ext. intros d. rewrite kl_term_R.
      assert (E : entry logsigma i d = 0) by apply (Forall_zero_nth d Hzero).
      rewrite E, Rmult_0_r, exp_0. lra. }
    rewrite Heq. lra.
Qed.

End KLRealBounds.

Lemma kl_divergence_monotone_mu_witness :
  exists kl kl',
    kl_divergence ex_logsigma ex_logsigma = Ok kl /\
    kl_divergence ex_mu ex_logsigma = Ok kl' /\
    (entry1 kl 0 <= entry1 kl' 0)%R.
Proof.
  apply (@kl_divergence_monotone_mu ex_logsigma ex_mu ex_logsigma 1 2 0);
    [ shape_tac | shape_tac | shape_tac | lia | ].
  intros [| [| d']] Hd; unfold entry; simpl;
    rewrite ?Rabs_R0, ?Rabs_R1; try lra; try lia.
  rewrite (Rabs_pos_eq 2); lra.
Defined.

Lemma kl_divergence_half_norm_witness :
  exists kl,
    kl_divergence ex_mu ex_logsigma = Ok kl /\
    (1 / 2 * sum_list (map (fun d => entry ex_mu 0 d * entry ex_mu 0 d) (seq 0 2))
       <= entry1 kl 0)%R /\
    (Forall (fun v => v = 0%R) (row ex_logsigma 0) ->
     entry1 kl 0 =
     (1 / 2 * sum_list (map (fun d => entry ex_mu 0 d * entry ex_mu 0 d) (seq 0 2)))%R).
Proof.
  apply (@kl_divergence_half_norm ex_mu ex_logsigma 1 2 0); try shape_tac.
Defined.

(** ** Further properties of the ELBO estimator *)

Section ElboRealFacts.

Context {G : Type} `{Runtime R G}.

Open Scope R_scope.

Lemma in_open_unit_R (p : R) : in_open_unit p -> 0 < p < 1.
Proof.
  unfold in_open_unit. simpl. unfold Rltb. intros [H0 H1].
  destruct (Rlt_dec 0 p), (Rlt_dec p 1); try discriminate. split; assumption.
Qed.

Lemma ln_open_unit_neg (p : R) : 0 < p < 1 -> ln p < 0.
Proof.
  intros [H0 H1]. rewrite <- ln_1. apply ln_increasing; assumption.
Qed.

Lemma recon_term_nonpos (x th : R) :
  0 <= x <= 1 -> 0 < th < 1 -> recon_term x th <= 0.
Proof.
  intros Hx Hth. unfold recon_term. simpl.
  pose proof (ln_open_unit_neg Hth).
  assert (Hth' : 0 < 1 - th < 1) by lra.
  pose proof (ln_open_unit_neg Hth'). nra.
Qed.

Lemma recon_row_nonpos (xr tr : list R) :
  Forall (fun v => 0 <= v <= 1) xr -> Forall in_open_unit tr ->
  recon_row xr tr <= 0.
Proof.
  intros Hx Hth. unfold recon_row. apply sum_list_nonpos.
  apply (Forall_zip_with recon_term
           (P := fun v => 0 <= v <= 1) (Q := in_open_unit)); auto.
  intros a b Ha Hb. apply recon_term_nonpos; [ assumption | ].
  apply in_open_unit_R, Hb.
Qed.

(** X10.  In exact real arithmetic, with an encoder and a decoder that
    keep their contracts, every entry of [elbo] is at most 0 when the
    entries of [x] are in [[0, 1]]. *)
Theorem elbo_nonpositive (self : VAE R) (input_dim batch_size : nat)
        (x : tensor2 R) (g : G) :
  encoder_contract self input_dim ->
  decoder_contract self input_dim ->
  decoder_range self ->
  has_shape x batch_size input_dim ->
  all_entries (fun v => 0 <= v <= 1) x ->
  exists out g',
    elbo self x g = (Ok out, g') /\ Forall (fun v => v <= 0) out.
Proof.
  intros Henc Hdec Hrange Hx Hx01.
  destruct (Henc x batch_size Hx) as [mu [logsigma [Emu [Hmu Hls]]]].
  destruct (reparametrize_spec Hmu Hls
              (noise_has_shape batch_size (latent_dim self) g))
    as [z [Hz [Hzs _]]].
  destruct (Hdec z batch_size Hzs) as [theta [Eth Hth]].
  pose proof (Hrange z theta Eth) as Hunit.
  eexists. eexists. split.
  - eapply elbo_steps; eassumption.
  - apply (Forall_zip_with Rminus (P := fun v => v <= 0) (Q := fun v => 0 <= v)).
    + intros a b Ha Hb. change (a - b <= 0). lra.
    + apply (Forall_zip_with recon_row
               (P := Forall (fun v => 0 <= v <= 1)) (Q := Forall in_open_unit));
        auto.
      intros xr tr. apply recon_row_nonpos.
    + apply (Forall_zip_with kl_row (P := fun _ => True) (Q := fun _ => True));
        auto using Forall_trivial.
      intros l m _ _. apply kl_row_nonneg.
Qed.

Lemma recon_row_half (xr : list R) :
  recon_row xr (repeat (1 / 2) (length xr)) = INR (length xr) * ln (1 / 2).
Proof.
  unfold recon_row. induction xr as [| a xr IH].
  - simpl length. simpl repeat. rewrite zip_with_nil_r, sum_list_R_nil.
    simpl. lra.
  - simpl length. simpl repeat. rewrite zip_with_cons, sum_list_R_cons, IH, S_INR.
    unfold recon_term. simpl.
    replace (1 - 1 / 2) with (1 / 2) by lra. lra.
Qed.

Lemma zip_with_repeat_const (f : list R -> list R -> R) (X : list (list R))
      (r : list R) (v : R) :
  Forall (fun xr => f xr r = v) X ->
  zip_with f X (repeat r (length X)) = repeat v (length X).
Proof.
  induction 1 as [| xr X Hxr _ IH]; [ reflexivity | ].
  simpl length. simpl repeat. rewrite zip_with_cons, Hxr, IH. reflexivity.
Qed.

(** X11.  In exact real arithmetic, when every entry of [theta] is 1/2
    the reconstruction term of line 90 is [input_dim * log(1/2)] on every
    row, whatever [x] is. *)
Theorem reconstruction_half (x : tensor2 R) (batch_size input_dim : nat) :
  has_shape x batch_size input_dim ->
  reconstruction x (full batch_size input_dim (1 / 2)) =
  Ok (repeat (INR input_dim * ln (1 / 2)) batch_size).
Proof.
  intros Hx.
  assert (Hth : has_shape (full batch_size input_dim (1 / 2)) batch_size input_dim).
  { unfold has_shape, wf2, full. simpl. rewrite repeat_length. repeat split.
    apply Forall_forall. intros r Hr. apply repeat_spec in Hr. subst r.
    apply repeat_length. }
  rewrite (reconstruction_rows Hx Hth). f_equal.
  unfold full. simpl rows.
  pose proof (has_shape_rows Hx) as Hlen.
  destruct Hx as [[_ Hrows] [_ S1]]. rewrite S1 in Hrows.
  rewrite <- Hlen. apply zip_with_repeat_const.
  apply Forall_forall. intros xr Hxr.
  rewrite Forall_forall in Hrows. specialize (Hrows xr Hxr).
  rewrite <- Hrows. apply recon_row_half.
Qed.

End ElboRealFacts.

Lemma ex_x_in_unit : all_entries (fun v => 0 <= v <= 1)%R ex_x.
Proof.
  unfold all_entries, ex_x. simpl. repeat constructor; lra.
Qed.

Lemma elbo_nonpositive_witness :
  exists out g',
    elbo (toy_vae 3 2) ex_x 0 = (Ok out, g') /\ Forall (fun v => v <= 0)%R out.
Proof.
  apply (@elbo_nonpositive nat toy_runtime (toy_vae 3 2) 3 2 ex_x 0).
  - apply rowwise_encoder_contract, toy_encoder_rowwise.
  - apply rowwise_decoder_contract, toy_decoder_rowwise.
  - apply toy_decoder_range.
  - shape_tac.
  - apply ex_x_in_unit.
Defined.

Lemma reconstruction_half_witness :
  reconstruction ex_x (full 2 3 (1 / 2)%R) =
  Ok (repeat (INR 3 * ln (1 / 2))%R 2).
Proof.
  apply (@reconstruction_half ex_x 2 3). shape_tac.
Defined.

(** ** What [elbo] and [sample] return, whatever the networks do *)

Section ReturnFacts.

Context {T : Type} `{Scalar T} {G : Type} `{Runtime T G}.

Lemma typecheck_ok (b : bool) (u : unit) : typecheck b = Ok u -> b = true.
Proof. destruct b; [ reflexivity | discriminate ]. Qed.

Lemma elbo_fst_length (self : VAE T) (x : tensor2 T) (g : G) (out : tensor1 T) :
  fst (elbo self x g) = Ok out -> length out = shape0 x.
Proof.
  intros Hret. pose proof (elbo_fst self x g) as Hfst.
  rewrite Hret in Hfst.
  destruct (encoder self x) as [p |]; simpl in Hfst; [ | discriminate ].
  destruct (fst (sample_with_reparametrization (fst p) (snd p) g)) as [z |];
    simpl in Hfst; [ | discriminate ].
  destruct (decoder self z) as [theta |]; simpl in Hfst; [ | discriminate ].
  destruct (reconstruction x theta) as [rec |]; simpl in Hfst; [ | discriminate ].
  destruct (kl_divergence (fst p) (snd p)) as [kl |]; simpl in Hfst; [ | discriminate ].
  destruct (t_sub1 rec kl) as [o |]; simpl in Hfst; [ | discriminate ].
  destruct (typecheck (length o =? shape0 x)) as [u |] eqn:Hcheck;
    simpl in Hfst; [ | discriminate ].
  injection Hfst as ->.
  apply typecheck_ok in Hcheck. apply Nat.eqb_eq in Hcheck. exact Hcheck.
Qed.

(** X12.  Whatever the encoder and the decoder do, when [elbo] returns,
    the result has one entry for each row of [x]. *)
Theorem elbo_returns_batch_size (self : VAE T) (x : tensor2 T) (g g' : G)
        (out : tensor1 T) :
  elbo self x g = (Ok out, g') -> length out = shape0 x.
Proof.
  intros Hret. apply (elbo_fst_length self x g). rewrite Hret. reflexivity.
Qed.

Lemma bernoulli_rows_binary (rs : list (list T)) (g : G) :
  Forall (Forall is_zero_or_one) (fst (bernoulli_rows rs g)).
Proof.
  revert g. induction rs as [| r rs IH]; intros g; simpl; [ constructor | ].
  pose proof (bernoulli_list_spec r g) as [_ Hbin].
  destruct (bernoulli_list r g) as [x g1]. specialize (IH g1).
  destruct (bernoulli_rows rs g1) as [xs g2]. simpl in *.
  constructor; assumption.
Qed.

(** X13.  Whatever the decoder does, when [sample] returns [(z, theta, x)],
    [num_samples] is not negative, [z] is the tensor of standard normal
    draws of shape [(num_samples, latent_dim)], [theta] is the value of the
    decoder at [z] and has [num_samples] rows, every entry of [theta] is
    in [[0, 1]], [x] has the shape of [theta] and every entry of [x] is 0
    or 1. *)
Theorem sample_returns (self : VAE T) (num_samples : Z) (g g' : G)
        (z theta x : tensor2 T) :
  sample self num_samples "cpu" g = (Ok (z, theta, x), g') ->
  (0 <= num_samples)%Z /\
  z = noise (Z.to_nat num_samples) (latent_dim self) g /\
  decoder self z = Ok theta /\
  shape0 theta = Z.to_nat num_samples /\
  all_entries (fun p => is_probability p = true) theta /\
  same_shape theta x = true /\
  all_entries is_zero_or_one x.
Proof.
  unfold sample, bind, lift, ret, torch_randn. intros Hret.
  destruct (fits_int64 num_samples); cbv beta iota in Hret;
    [ | discriminate ].
  destruct ((0 <=? num_samples)%Z &&
            negb (allocation_ok (num_samples * Z.of_nat (latent_dim self))));
    cbv beta iota in Hret; [ discriminate | ].
  destruct (Z.ltb_spec num_samples 0) as [Hneg | Hnn].
  - unfold randn in Hret.
    destruct (Z.ltb_spec num_samples 0); [ discriminate | lia ].
  - rewrite (randn_nonneg _ _ Hnn) in Hret. simpl in Hret.
    destruct (decoder self (noise (Z.to_nat num_samples) (latent_dim self) g))
      as [th |] eqn:Edec; [ | discriminate ].
    unfold bernoulli in Hret.
    destruct (forallb (forallb is_probability) (rows th)) eqn:Hprob;
      [ | discriminate ].
    pose proof (bernoulli_rows_binary (rows th)
                  (noise_state (Z.to_nat num_samples) (latent_dim self) g)) as Hbin.
    destruct (bernoulli_rows (rows th)
                (noise_state (Z.to_nat num_samples) (latent_dim self) g))
      as [xs g2]. simpl in Hbin.
    destruct (typecheck _) as [u |] eqn:Hcheck in Hret; [ | discriminate ].
    injection Hret as <- <- <- <-.
    apply typecheck_ok in Hcheck. apply andb_true_iff in Hcheck.
    destruct Hcheck as [Hrows Hsame]. apply Nat.eqb_eq in Hrows.
    simpl in Hrows. repeat split; auto.
    unfold all_entries. apply Forall_forall. intros r Hr.
    apply Forall_forall. intros p Hp.
    rewrite forallb_forall in Hprob. specialize (Hprob r Hr).
    rewrite forallb_forall in Hprob. apply Hprob, Hp.
Qed.

(** X14.  With networks that act on each row, entry [i] of [elbo] on a
    batch is the value of [elbo] on the batch made of row [i] alone, when
    the noise drawn for that single row is the noise drawn for row [i] of
    the batch. *)
Theorem elbo_single_row (self : VAE T) (input_dim batch_size i : nat)
        (x : tensor2 T) (g g1 : G) :
  encoder_rowwise self input_dim ->
  decoder_rowwise self input_dim ->
  has_shape x batch_size input_dim ->
  i < batch_size ->
  row (noise 1 (latent_dim self) g1) 0 =
  row (noise batch_size (latent_dim self) g) i ->
  exists out out1,
    fst (elbo self x g) = Ok out /\
    fst (elbo self (single_row x i) g1) = Ok out1 /\
    length out1 = 1 /\
    entry1 out i = entry1 out1 0.
Proof.
  intros [f_mu [f_ls [Hlen Henc]]] [f_th [Hlth Hdec]] Hx Hi Hnoise.
  assert (Hx1 : has_shape (single_row x i) 1 input_dim).
  { pose proof (has_shape_row Hx Hi) as Hrow. destruct Hx as [_ [_ S1]].
    unfold has_shape, wf2, single_row. simpl. rewrite S1.
    repeat split. constructor; [ assumption | constructor ]. }
  destruct (elbo_row_entry self g Hlen Henc Hlth Hdec Hx Hi) as [out [Eout Hout]].
  destruct (elbo_row_entry self g1 Hlen Henc Hlth Hdec Hx1 (Nat.lt_0_1))
    as [out1 [Eout1 Hout1]].
  exists out, out1. rewrite Eout, Eout1. simpl fst.
  repeat split.
  - apply (elbo_fst_length self (single_row x i) g1). rewrite Eout1. reflexivity.
  - rewrite Hout, Hout1, Hnoise. reflexivity.
Qed.

End ReturnFacts.

Lemma toy_elbo_returns :
  exists out g', elbo (toy_vae 3 2) ex_x 0 = (Ok out, g').
Proof.
  destruct (toy_encoder_rowwise 3 2) as [f_mu [f_ls [Hlen Henc]]].
  destruct (toy_decoder_rowwise 3 2) as [f_th [Hlth Hdec]].
  assert (Hx : has_shape ex_x 2 3) by shape_tac.
  destruct (elbo_row_entry (toy_vae 3 2) 0 Hlen Henc Hlth Hdec Hx Nat.lt_0_2)
    as [out [Eout _]].
  exists out. eexists. exact Eout.
Qed.

Lemma elbo_returns_batch_size_witness :
  exists out g',
    elbo (toy_vae 3 2) ex_x 0 = (Ok out, g') /\ length out = shape0 ex_x.
Proof.
  destruct toy_elbo_returns as [out [g' Eout]].
  exists out, g'. split; [ exact Eout | ].
  apply (@elbo_returns_batch_size R R_scalar nat toy_runtime (toy_vae 3 2) ex_x
           0 g' out Eout).
Defined.

Lemma toy_sample_returns :
  exists z theta x g', sample (toy_vae 3 2) 2 "cpu" 0 = (Ok (z, theta, x), g').
Proof.
  pose proof (noise_has_shape (T := R) 2 2 0) as Hz.
  destruct (rowwise_decoder_contract (toy_decoder_rowwise 3 2) Hz)
    as [theta [Eth Hth]].
  pose proof (toy_decoder_range 3 2 _ Eth) as Hunit.
  destruct (bernoulli_spec (noise_state (T := R) 2 2 0) Hth Hunit)
    as [x [g' [Ex [Hx _]]]].
  exists (noise 2 2 0), theta, x, g'.
  unfold sample, bind, lift, ret.
  rewrite torch_randn_fits
    by (try reflexivity; unfold int64_max;
        change (2 ^ 63 - 1)%Z with 9223372036854775807%Z; lia).
  rewrite randn_nonneg by lia.
  change (to_device "cpu" (noise (Z.to_nat 2) (latent_dim (toy_vae 3 2)) 0))
    with (Ok (noise (T := R) 2 2 0)).
  cbv iota beta. rewrite Eth.
  change (noise_state (Z.to_nat 2) (latent_dim (toy_vae 3 2)) 0)
    with (noise_state (T := R) 2 2 0).
  rewrite Ex.
  destruct Hth as [_ [T0 T1]], Hx as [_ [X0 X1]].
  rewrite same_shape_true by congruence.
  change (shape0 (noise (T := R) 2 2 0)) with 2%nat.
  rewrite T0. reflexivity.
Qed.

Lemma sample_returns_witness :
  exists z theta x g',
    sample (toy_vae 3 2) 2 "cpu" 0 = (Ok (z, theta, x), g') /\
    (0 <= 2)%Z /\
    z = noise (Z.to_nat 2) (latent_dim (toy_vae 3 2)) 0 /\
    decoder (toy_vae 3 2) z = Ok theta /\
    shape0 theta = Z.to_nat 2 /\
    all_entries (fun p => is_probability p = true) theta /\
    same_shape theta x = true /\
    all_entries is_zero_or_one x.
Proof.
  destruct toy_sample_returns as [z [theta [x [g' Eret]]]].
  exists z, theta, x, g'. split; [ exact Eret | ].
  apply (@sample_returns R R_scalar nat toy_runtime (toy_vae 3 2) 2 0 g'
           z theta x Eret).
Defined.

Lemma elbo_single_row_witness :
  exists out out1,
    fst (elbo (toy_vae 3 2) ex_x 0) = Ok out /\
    fst (elbo (toy_vae 3 2) (single_row ex_x 1) 2) = Ok out1 /\
    length out1 = 1 /\
    entry1 out 1 = entry1 out1 0.
Proof.
  apply (@elbo_single_row R R_scalar nat toy_runtime (toy_vae 3 2) 3 2 1 ex_x 0 2).
  - apply toy_encoder_rowwise.
  - apply toy_decoder_rowwise.
  - shape_tac.
  - lia.
  - reflexivity.
Defined.

(** ** Further properties of the reparametrized sampler *)

Lemma tensor_ext {T : Type} `{Scalar T} (a b : tensor2 T) (n m : nat) :
  has_shape a n m -> has_shape b n m ->
  (forall i j, i < n -> j < m -> entry a i j = entry b i j) ->
  a = b.
Proof.
  intros Ha Hb Hentry.
  pose proof (has_shape_rows Ha) as La. pose proof (has_shape_rows Hb) as Lb.
  assert (Hrows : rows a = rows b).
  { apply (nth_ext _ _ [] []); [ congruence | ].
    intros i Hi. rewrite La in Hi.
    pose proof (has_shape_row Ha Hi) as Ra. pose proof (has_shape_row Hb Hi) as Rb.
    unfold row in Ra, Rb.
    apply (nth_ext _ _ (s_of_Z 0) (s_of_Z 0)); [ congruence | ].
    intros j Hj. rewrite Ra in Hj. apply (Hentry i j Hi Hj). }
  destruct a as [a0 a1 ra], b as [b0 b1 rb].
  destruct Ha as [_ [A0 A1]], Hb as [_ [B0 B1]]. simpl in *. congruence.
Qed.

Section SamplerRealFacts.

Context {G : Type} `{Runtime R G}.

Open Scope R_scope.

(** X15.  In exact real arithmetic the noise is recovered from the result
    of [sample_with_reparametrization] as [(z - mu) / exp(logsigma)],
    entry by entry; so two states of the generator that give the same
    result have given the same noise. *)
Theorem sample_with_reparametrization_inverse
        (mu logsigma : tensor2 R) (batch_size latent : nat) (g : G) :
  has_shape mu batch_size latent ->
  has_shape logsigma batch_size latent ->
  exists z,
    sample_with_reparametrization mu logsigma g =
      (Ok z, noise_state batch_size latent g) /\
    (forall i j, (i < batch_size)%nat -> (j < latent)%nat ->
       entry (noise batch_size latent g) i j =
       (entry z i j - entry mu i j) / exp (entry logsigma i j)) /\
    (forall g2,
       fst (sample_with_reparametrization mu logsigma g2) = Ok z ->
       noise batch_size latent g2 = noise batch_size latent g).
Proof.
  intros Hmu Hls.
  pose proof (noise_has_shape batch_size latent g) as Heps.
  destruct (reparametrize_spec Hmu Hls Heps) as [z [Ez [Hz Hentry]]].
  exists z. split; [ apply (sample_with_reparametrization_noise g Hmu Hls Ez) | ].
  assert (Hinv : forall i j, (i < batch_size)%nat -> (j < latent)%nat ->
            entry (noise batch_size latent g) i j =
            (entry z i j - entry mu i j) / exp (entry logsigma i j)).
  { intros i j Hi Hj. rewrite (Hentry i j Hi Hj). simpl.
    pose proof (exp_pos (entry logsigma i j)). field. lra. }
  split; [ exact Hinv | ].
  intros g2 Hg2.
  pose proof (noise_has_shape batch_size latent g2) as Heps2.
  destruct (reparametrize_spec Hmu Hls Heps2) as [z2 [Ez2 [_ Hentry2]]].
  rewrite (sample_with_reparametrization_noise g2 Hmu Hls Ez2) in Hg2.
  simpl in Hg2. injection Hg2 as ->.
  apply (tensor_ext Heps2 Heps). intros i j Hi Hj.
  rewrite (Hinv i j Hi Hj), (Hentry2 i j Hi Hj). simpl.
  pose proof (exp_pos (entry logsigma i j)). field. lra.
Qed.

Lemma has_shape_full (n m : nat) (c : R) : has_shape (full n m c) n m.
Proof.
  unfold has_shape, wf2, full. simpl. rewrite repeat_length. repeat split.
  apply Forall_forall. intros r Hr. apply repeat_spec in Hr. subst r.
  apply repeat_length.
Qed.

Lemma entry_full (n m i j : nat) (c : R) :
  (i < n)%nat -> (j < m)%nat -> entry (full n m c) i j = c.
Proof.
  intros Hi Hj. unfold entry, full. simpl.
  rewrite (nth_indep _ [] (repeat c m)) by (rewrite repeat_length; assumption).
  rewrite nth_repeat. simpl.
  rewrite (nth_indep _ 0 c) by (rewrite repeat_length; assumption).
  apply nth_repeat.
Qed.

(** X16.  In exact real arithmetic, with [mu = 0] and [logsigma = 0] (the
    parameters of the prior) [sample_with_reparametrization] returns what
    [torch.randn(n, m)] of line 119 returns, and leaves the generator in
    the same state. *)
Theorem sample_with_reparametrization_prior (n m : nat) (g : G) :
  sample_with_reparametrization (full n m 0) (full n m 0) g =
  randn (Z.of_nat n) m g.
Proof.
  pose proof (has_shape_full n m 0) as Hzero.
  pose proof (noise_has_shape n m g) as Heps.
  destruct (reparametrize_spec Hzero Hzero Heps) as [z [Ez [Hz Hentry]]].
  rewrite (sample_with_reparametrization_noise g Hzero Hzero Ez).
  rewrite randn_nonneg by lia. rewrite Nat2Z.id. do 2 f_equal.
  apply (tensor_ext Hz Heps). intros i j Hi Hj.
  rewrite (Hentry i j Hi Hj), (entry_full 0 Hi Hj). simpl.
  rewrite exp_0. lra.
Qed.

End SamplerRealFacts.

Lemma sample_with_reparametrization_inverse_witness :
  exists z,
    sample_with_reparametrization ex_mu ex_logsigma 0 =
      (Ok z, noise_state (T := R) 1 2 0) /\
    (forall i j, i < 1 -> j < 2 ->
       entry (noise 1 2 0) i j =
       ((entry z i j - entry ex_mu i j) / exp (entry ex_logsigma i j))%R) /\
    (forall g2,
       fst (sample_with_reparametrization ex_mu ex_logsigma g2) = Ok z ->
       noise (T := R) 1 2 g2 = noise 1 2 0).
Proof.
  apply (@sample_with_reparametrization_inverse nat toy_runtime
           ex_mu ex_logsigma 1 2 0); shape_tac.
Defined.

(** ** NaN in binary32 arithmetic *)

Section Binary32NaN.

Variables (f32_exp f32_log : spec_float -> spec_float)
          (f32_pow : spec_float -> Z -> spec_float).

Let F32 : Scalar spec_float := F32_scalar f32_exp f32_log f32_pow.

Lemma SFadd_nan_r (v : spec_float) : SFadd 24 128 v S754_nan = S754_nan.
Proof. destruct v; reflexivity. Qed.

Lemma SFsub_nan_r (v : spec_float) : SFsub 24 128 v S754_nan = S754_nan.
Proof. destruct v; reflexivity. Qed.

Lemma SFmul_nan_r (v : spec_float) : SFmul 24 128 v S754_nan = S754_nan.
Proof. destruct v; reflexivity. Qed.

Lemma f32_kl_term_nan (l m : spec_float) :
  l = S754_nan \/ m = S754_nan -> kl_term (H := F32) l m = S754_nan.
Proof.
  intros [-> | ->].
  - change (SFsub 24 128
              (SFsub 24 128
                 (SFadd 24 128 (f32_of_Z 1) (SFmul 24 128 (f32_of_Z 2) S754_nan))
                 (SFmul 24 128 m m))
              (f32_exp (SFmul 24 128 (f32_of_Z 2) S754_nan)) = S754_nan).
    rewrite SFmul_nan_r, SFadd_nan_r. reflexivity.
  - change (SFsub 24 128
              (SFsub 24 128
                 (SFadd 24 128 (f32_of_Z 1) (SFmul 24 128 (f32_of_Z 2) l))
                 (SFmul 24 128 S754_nan S754_nan))
              (f32_exp (SFmul 24 128 (f32_of_Z 2) l)) = S754_nan).
    rewrite SFmul_nan_r, SFsub_nan_r. reflexivity.
Qed.

Lemma f32_sum_from_nan (l : list spec_float) :
  fold_left (SFadd 24 128) l S754_nan = S754_nan.
Proof. induction l as [| a l IH]; simpl; auto. Qed.

Lemma f32_sum_with_nan (l : list spec_float) (acc : spec_float) :
  In S754_nan l -> fold_left (SFadd 24 128) l acc = S754_nan.
Proof.
  revert acc. induction l as [| a l IH]; intros acc Hin.
  - destruct Hin.
  - destruct Hin as [-> | Hin]; simpl.
    + rewrite SFadd_nan_r. apply f32_sum_from_nan.
    + apply IH, Hin.
Qed.

(** X17.  In binary32 arithmetic, whatever [exp] returns, a NaN in row
    [i] of [mu] or of [logsigma] makes entry [i] of [kl_divergence] a
    NaN. *)
Theorem f32_kl_nan_propagates (mu logsigma : tensor2 spec_float)
        (batch_size latent i d : nat) :
  has_shape mu batch_size latent ->
  has_shape logsigma batch_size latent ->
  i < batch_size -> d < latent ->
  entry (H := F32) logsigma i d = S754_nan \/ entry (H := F32) mu i d = S754_nan ->
  exists kl,
    kl_divergence (H := F32) mu logsigma = Ok kl /\
    entry1 (H := F32) kl i = S754_nan.
Proof.
  intros Hmu Hls Hi Hd Hnan.
  exists (zip_with (kl_row (H := F32)) (rows logsigma) (rows mu)).
  split; [ apply (kl_divergence_rows Hmu Hls) | ].
  rewrite (entry1_kl_rows Hmu Hls Hi).
  unfold kl_row, sum_list.
  change (@s_add _ F32) with (SFadd 24 128).
  rewrite f32_sum_with_nan; [ apply SFmul_nan_r | ].
  assert (Hnth :
    nth d (zip_with (kl_term (H := F32)) (row logsigma i) (row mu i)) S754_nan =
    S754_nan).
  { rewrite (nth_zip_with (kl_term (H := F32)) (row logsigma i) (row mu i)
               S754_nan (@s_of_Z _ F32 0) (@s_of_Z _ F32 0))
      by (rewrite ?(has_shape_row Hmu Hi), ?(has_shape_row Hls Hi); assumption).
    apply f32_kl_term_nan. exact Hnan. }
  rewrite <- Hnth. apply nth_In.
  rewrite zip_with_length, (has_shape_row Hmu Hi), (has_shape_row Hls Hi).
  rewrite Nat.min_id. assumption.
Qed.

End Binary32NaN.

Lemma f32_kl_nan_propagates_witness :
  exists kl,
    kl_divergence (H := F32_scalar (fun v => v) (fun v => v) (fun v _ => v))
      (Tensor2 1 1 [[S754_nan]]) f32_zeros = Ok kl /\
    entry1 (H := F32_scalar (fun v => v) (fun v => v) (fun v _ => v)) kl 0 = S754_nan.
Proof.
  apply (@f32_kl_nan_propagates (fun v => v) (fun v => v) (fun v _ => v)
           (Tensor2 1 1 [[S754_nan]]) f32_zeros 1 1 0 0);
    [ shape_tac | shape_tac | lia | lia | right; reflexivity ].
Defined.
